(** * Typefont: the symbol-level matching pipeline

    A shallow embedding of the JavaScript sources of Typefont
    (typefont.js, comparison/shape.js, comparison/analytic.js,
    font/fontstorage.js, image/imagedrawing.js) and the properties of the
    pipeline that follow from them.

    Conventions of the embedding.

    - A JavaScript object used as a dictionary is a [gmap string V].  Keys
      are glyph labels or JSON field names; a read of a missing key is
      [undefined], which is falsy.
    - JavaScript numbers are exact rationals [Qc]; the one exceptional value
      the code can produce, [NaN] (from [0 / 0]), is a constructor of
      [Js.number].
    - A promise is represented by its settlement [Js.promise]: pending,
      resolved with a value, or rejected with a reason.  [resolve] and
      [reject] have no effect on a promise that is already settled.
    - The event loop is single threaded: every callback runs to completion.
      Asynchronous code is a transition function on an explicit state, and an
      execution is the list of events the environment delivers, in order. *)

From Stdlib Require Import QArith Qcanon Lqa Sorted.
From stdpp Require Import base gmap sets list strings numbers.

Set Warnings "-clear-no-such-hyp".

(** ** JavaScript values *)

Module Js.

(** Numbers: rationals and [NaN]. *)
Inductive number :=
| Num (q : Qc)
| NaN.

(** Why a promise was rejected: a message passed to [reject], or an
    exception thrown inside a callback. *)
Inductive reason :=
| Message (text : string)
| TypeError (text : string).

Inductive promise (A : Type) :=
| Pending
| Resolved (value : A)
| Rejected (why : reason).
Global Arguments Pending {A}.
Global Arguments Resolved {A} value.
Global Arguments Rejected {A} why.

(** [resolve(v)] and [reject(e)] called on a promise in state [p]. *)
Definition resolve {A} (v : A) (p : promise A) : promise A :=
  match p with Pending => Resolved v | _ => p end.
Definition reject {A} (e : reason) (p : promise A) : promise A :=
  match p with Pending => Rejected e | _ => p end.

(** Truthiness of a string: every string but the empty one. *)
Definition truthy (s : string) : bool :=
  match s with EmptyString => false | String _ _ => true end.

(** [!!o[k]] on a dictionary of strings: [undefined] is falsy. *)
Definition truthy_get (o : gmap string string) (k : string) : bool :=
  match o !! k with Some v => truthy v | None => false end.

(** [x - y], [x * y], [x / y] on numbers.  [0 / 0] is [NaN]; a non-zero
    numerator over zero (an infinity) does not occur in the code modelled
    here and is mapped to [NaN] as well. *)
Definition sub (x y : number) : number :=
  match x, y with Num a, Num b => Num (a - b)%Qc | _, _ => NaN end.
Definition mul (x y : number) : number :=
  match x, y with Num a, Num b => Num (a * b)%Qc | _, _ => NaN end.
Definition add (x y : number) : number :=
  match x, y with Num a, Num b => Num (a + b)%Qc | _, _ => NaN end.
Definition div (x y : number) : number :=
  match x, y with
  | Num a, Num b => if decide (b = 0%Qc) then NaN else Num (a / b)%Qc
  | _, _ => NaN
  end.

End Js.

(** ** image/imagedrawing.js: the part of the canvas the pipeline reads *)

Module ImageDrawing.

(** The 2D context of a canvas, as far as the sources use it:
    [getImageData(x, y, w, h)] and the encoding of a fragment by
    [toDataURL()]. *)
Class Canvas (image fragment : Type) := {
  getImageData : image → Z → Z → Z → Z → fragment;
  toDataURL : fragment → string
}.

(** [crop(x, y, width, height)]: the last two arguments are the far corner
    of the rectangle, not its extent. *)
Definition crop `{Canvas image fragment}
    (img : image) (x y width height : Z) : string :=
  toDataURL (getImageData img x y (width - x) (height - y)).

(** *** The operations on the pixels of the frame

    The frame of an [ImageDrawing] is the list of bytes that
    [getImageData(0, 0, width, height).data] returns, four (R, G, B, A) per
    pixel.  [getImageData] returns a copy; [putImageData(canvas, 0, 0)]
    replaces the whole frame by the bytes it is given.  A write past the end
    of the byte array has no effect, and a [NaN] is stored as 0. *)




(** The loop of [reverse()]. *)
Fixpoint reverse_loop (data : list Z) : list Z :=
  match data with
  | r :: g :: b :: a :: rest =>
      (255 - r)%Z :: (255 - g)%Z :: (255 - b)%Z :: a :: reverse_loop rest
  | tail => (λ x, 255 - x)%Z <$> tail
  end.

(** [reverse()] *)
Definition reverse (frame : list Z) : list Z :=
  let data := frame in
  reverse_loop data.




(** [brightness()]: [union / data.length / 4]; a pixel that is cut short adds
    [NaN]. *)
Fixpoint brightness_loop (data : list Z) (union : Js.number) : Js.number :=
  match data with
  | r :: g :: b :: a :: rest =>
      brightness_loop rest
        (Js.add union (Js.Num (Qc_of_Z (r + g + b + a) / Qc_of_Z 4)%Qc))
  | [] => union
  | _ => Js.NaN
  end.

Definition brightness (frame : list Z) : Js.number :=
  Js.div (Js.div (brightness_loop frame (Js.Num 0%Qc))
                 (Js.Num (Qc_of_Z (Z.of_nat (length frame)))))
         (Js.Num (Qc_of_Z 4)).

(** What the browser supplies to [draw]: the size of a loaded image and the
    bytes of the frame once [drawImage(image, 0, 0, width, height)] has
    painted it on a canvas of that size: four for each pixel. *)
Class Raster (image : Type) := {
  natural_width : image → nat;
  natural_height : image → nat;
  drawImage : image → nat → nat → list Z;
  drawImage_length :
    ∀ img width height, length (drawImage img width height) = 4 * (width * height)
}.

(** [w || image.width], times [scale]: no [w], or 0, is the size of the
    image.  The sources call [draw] with the scale 1; scales are natural
    numbers here. *)
Definition extent (w : option nat) (natural scale : nat) : nat :=
  match w with
  | Some (S n) => S n * scale
  | _ => natural * scale
  end.

(** [draw(url, scale, w, h)] once the image has loaded: the size of the
    canvas and the frame. *)
Definition draw `{Raster image} (img : image) (scale : nat) (w h : option nat)
    : nat * nat * list Z :=
  let width := extent w (natural_width img) scale in
  let height := extent h (natural_height img) scale in
  (width, height, drawImage img width height).

(** [base64ToBuffer(base64)], given [atob] ([None] when it throws): the
    codes of the characters of the decoded string. *)
Definition base64ToBuffer (atob : string → option string) (base64 : string)
    : option (list Z) :=
  match atob base64 with
  | Some decode =>
      Some ((λ ch, Z.of_nat (Ascii.nat_of_ascii ch)) <$> String.list_ascii_of_string decode)
  | None => None
  end.

End ImageDrawing.

(** ** comparison/shape.js *)

Module ShapePerception.

(** An [ImageDrawing] after [draw]: the width of its canvas and the bytes of
    [getImageData(0, 0, width, height).data], four (R, G, B, A) per pixel in
    row-major order. *)
Record drawing := { width : nat; height : nat; data : list Z }.

(** The pixel data of a canvas has four bytes for each of its
    [width * height] pixels. *)
Definition well_formed (img : drawing) : Prop :=
  length (data img) = 4 * (width img * height img).

(** A sequential loop whose body may throw. *)
Fixpoint for_each {A S : Type} (body : A → S → Js.reason + S)
    (l : list A) (s : S) : Js.reason + S :=
  match l with
  | [] => inr s
  | x :: l' =>
      match body x s with
      | inl e => inl e
      | inr s' => for_each body l' s'
      end
  end.

(** The variables of the loop of [_getBinarizedMatrix]. *)
Record scan := { matrix : list (list Z); w : nat; j : nat }.

(** One iteration of the loop, on the red byte [data[i]] of a pixel. *)
Definition scan_pixel (width : nat) (red : Z) (s : scan) : Js.reason + scan :=
  let '(w, j) := if decide (w s = width) then (0, S (j s)) else (w s, j s) in
  let matrix := if decide (w = 0) then matrix s ++ [[]] else matrix s in
  match matrix !! j with
  | Some row =>
      inr {| matrix := <[j := row ++ [if decide (red = 255%Z) then 1%Z else 0%Z]]> matrix;
             w := S w; j := j |}
  | None => inl (Js.TypeError "matrix[j] is undefined")
  end.

(** [for (let i = 0, ll = data.length; i < ll; i += 4)]: the loop reads
    [data[i]] and skips the three bytes after it. *)
Fixpoint scan_data (width : nat) (data : list Z) (s : scan) : Js.reason + scan :=
  match data with
  | [] => inr s
  | red :: tl =>
      match scan_pixel width red s with
      | inl e => inl e
      | inr s' =>
          match tl with
          | _ :: _ :: _ :: rest => scan_data width rest s'
          | _ => inr s'
          end
      end
  end.

(** [_getBinarizedMatrix(img)] *)
Definition _getBinarizedMatrix (img : drawing) : Js.reason + list (list Z) :=
  match scan_data (width img) (data img) {| matrix := []; w := 0; j := 0 |} with
  | inl e => inl e
  | inr s => inr (matrix s)
  end.

(** [m[i][j]]: a missing row throws, a missing cell is [undefined]. *)
Definition cell (m : list (list Z)) (i j : nat) : Js.reason + option Z :=
  match m !! i with
  | Some row => inr (row !! j)
  | None => inl (Js.TypeError "matrix[i] is undefined")
  end.

(** [a != b] on cells: two numbers differ when they are not equal, a number
    and [undefined] always differ, [undefined] does not differ from itself. *)
Definition differs (a b : option Z) : bool := bool_decide (a ≠ b).

(** [if (matrix[i][j] != matrix1[i][j]) ++dist;] *)
Definition compare_cell (matrix matrix1 : list (list Z)) (i j dist : nat)
    : Js.reason + nat :=
  match cell matrix i j with
  | inl e => inl e
  | inr a =>
      match cell matrix1 i j with
      | inl e => inl e
      | inr b => inr (if differs a b then S dist else dist)
      end
  end.

(** The two nested loops over [i < r] and [j < c]. *)
Definition distance (matrix matrix1 : list (list Z)) (r c : nat)
    : Js.reason + nat :=
  for_each
    (λ i, for_each (λ j, compare_cell matrix matrix1 i j) (seq 0 c))
    (seq 0 r) 0.

(** [100 - (dist / (r * c) * 100)] *)
Definition similarity (dist r c : nat) : Js.number :=
  Js.sub (Js.Num (Qc_of_Z 100))
    (Js.mul (Js.div (Js.Num (Qc_of_Z (Z.of_nat dist)))
                    (Js.Num (Qc_of_Z (Z.of_nat (r * c)))))
            (Js.Num (Qc_of_Z 100))).

(** The body of the [then] callback of [_compare], on the two matrices. *)
Definition compare_matrices (matrix matrix1 : list (list Z))
    : Js.reason + Js.number :=
  let r := length matrix in
  match matrix !! 0 with
  | None => inl (Js.TypeError "matrix[0] is undefined")
  | Some row0 =>
      let c := length row0 in
      match distance matrix matrix1 r c with
      | inl e => inl e
      | inr dist => inr (similarity dist r c)
      end
  end.

(** [_compare(first, second, options)], given the settlement [res] of
    [_prepareImages(first, second, options)]: the two drawings once both
    images are loaded, or the reason one of them failed to load.  An
    exception thrown in the [then] callback rejects through
    [.catch(reject)]. *)
Definition _compare (res : Js.promise (drawing * drawing)) : Js.promise Js.number :=
  match res with
  | Js.Pending => Js.Pending
  | Js.Rejected e => Js.Rejected e
  | Js.Resolved (img, img1) =>
      match _getBinarizedMatrix img with
      | inl e => Js.Rejected e
      | inr matrix =>
          match _getBinarizedMatrix img1 with
          | inl e => Js.Rejected e
          | inr matrix1 =>
              match compare_matrices matrix matrix1 with
              | inl e => Js.Rejected e
              | inr v => Js.Resolved v
              end
          end
      end
  end.

(** [perceptualComparisonSize = 64] *)
Definition default_perceptualComparisonSize : nat := 64.

(** [_prepareImages(first, second, options)], given the settlement of the
    loading of the two images: both are drawn at [size × size]. *)
Definition _prepareImages `{ImageDrawing.Raster image}
    (perceptualComparisonSize : option nat) (res : Js.promise (image * image))
    : Js.promise (drawing * drawing) :=
  let size := default default_perceptualComparisonSize perceptualComparisonSize in
  let drawn img :=
    let '(width, height, data) :=
      ImageDrawing.draw img 1 (Some size) (Some size) in
    {| width := width; height := height; data := data |} in
  match res with
  | Js.Pending => Js.Pending
  | Js.Rejected e => Js.Rejected e
  | Js.Resolved (first, second) => Js.Resolved (drawn first, drawn second)
  end.

(** [ShapePerception(first, second, options)] *)
Definition perceive `{ImageDrawing.Raster image}
    (perceptualComparisonSize : option nat) (res : Js.promise (image * image))
    : Js.promise Js.number :=
  _compare (_prepareImages perceptualComparisonSize res).

End ShapePerception.

(** ** comparison/analytic.js *)

Module AnalyticPerception.

(** The image library, as far as [_compare] uses it: [resize(w, h)] and the
    [percent] field of [Jimp.diff(img, img1, threshold)]. *)
Class Jimp (image : Type) := {
  resize : image → Z → Z → image;
  diff_percent : image → image → Qc → Qc
}.

Record options := {
  analyticComparisonThreshold : option Qc;
  analyticComparisonScaleToSameSize : option bool;
  analyticComparisonSize : option Z
}.

Definition default_threshold : Qc := (1 / 2)%Qc.

(** [_compare(first, second, options)], given the settlement [res] of
    [Promise.all([Jimp.read(first), Jimp.read(second)])]. *)
Definition _compare `{Jimp image} (res : Js.promise (image * image))
    (opts : options) : Js.promise Js.number :=
  let threshold := default default_threshold (analyticComparisonThreshold opts) in
  let scale := default false (analyticComparisonScaleToSameSize opts) in
  let size := default 128%Z (analyticComparisonSize opts) in
  match res with
  | Js.Pending => Js.Pending
  | Js.Rejected e => Js.Rejected e
  | Js.Resolved (img, img1) =>
      let '(img, img1) :=
        if scale then (resize img size size, resize img1 size size)
        else (img, img1) in
      Js.Resolved
        (Js.Num (Qc_of_Z 100 - diff_percent img img1 threshold * Qc_of_Z 100)%Qc)
  end.

(** [s.substr(n)]: what follows the first [n] characters. *)
Fixpoint substr (n : nat) (s : string) : string :=
  match n, s with
  | 0, _ => s
  | S n', String _ s' => substr n' s'
  | S _, EmptyString => EmptyString
  end.

(** What is handed to [Jimp.read]: the string itself, or a buffer. *)
Inductive source :=
| Url (url : string)
| Buffer (bytes : list Z).

(** [if (!first.indexOf("data:image/png"))
       first = ImageDrawing.base64ToBuffer(first.substr(22));]
    [indexOf] is 0 when the string starts with the text, and [None] stands
    for its -1.  An exception of [atob] leaves [_compare] before the promise
    exists. *)
Definition read_source (atob : string → option string) (first : string)
    : option source :=
  match String.index 0 "data:image/png" first with
  | Some 0 => Buffer <$> ImageDrawing.base64ToBuffer atob (substr 22 first)
  | _ => Some (Url first)
  end.

End AnalyticPerception.

(** ** font/fontstorage.js *)

Module FontStorage.

(** A document returned by [JSON.parse]. *)
#[warnings="-register-all"]
Inductive json :=
| JNull
| JBool (b : bool)
| JNumber (n : Z)
| JString (s : string)
| JArray (items : list json)
| JObject (fields : gmap string json).

(** What the browser supplies: [JSON.parse] ([None] when it throws) and the
    conversion to string of a value that is not a string, as a template
    literal performs it. *)
Class Engine := {
  JSON_parse : string → option json;
  ToString : json → string
}.

(** The events of an [XMLHttpRequest].  No handler is installed for a
    timeout. *)
Inductive xhr_event :=
| OnLoad (status : Z) (responseText : string)
| OnError
| OnAbort
| OnTimeout.

(** The object [_fetch] resolves with; [content] is absent unless assigned. *)
Record fetched := { exists_ : bool; content : option json }.

(** [_fetch(url, options)], given the event the request ends with. *)
Definition _fetch `{Engine} (url : string) (ev : xhr_event) : Js.promise fetched :=
  match ev with
  | OnLoad status responseText =>
      let exists_ := bool_decide (status ≠ 404%Z) in
      let '(result, p) :=
        if exists_ then
          match JSON_parse responseText with
          | Some c => ({| exists_ := exists_; content := Some c |}, Js.Pending)
          | None =>
              ({| exists_ := exists_; content := None |},
               Js.reject (Js.Message ("Unable to parse " +:+ url +:+ " content"))
                 Js.Pending)
          end
        else ({| exists_ := exists_; content := None |}, Js.Pending) in
      Js.resolve result p
  | OnError | OnAbort => Js.reject (Js.Message ("Unable to open " +:+ url)) Js.Pending
  | OnTimeout => Js.Pending
  end.

(** [v.k] for the field names the sources read ([index], [alpha]): reading a
    property of [undefined] or [null] throws; an object gives its field; no
    other value has a property of such a name. *)
Definition member (v : option json) (k : string) : Js.reason + option json :=
  match v with
  | None => inl (Js.TypeError ("Cannot read properties of undefined (reading '" +:+ k +:+ "')"))
  | Some JNull => inl (Js.TypeError ("Cannot read properties of null (reading '" +:+ k +:+ "')"))
  | Some (JObject fields) => inr (fields !! k)
  | Some _ => inr None
  end.

Definition isArray (v : option json) : bool :=
  match v with Some (JArray _) => true | _ => false end.

Definition index_format_message (url : string) : string :=
  "The JSON structure of " +:+ url +:+
  " does not meet the established format for the fonts index".

Definition font_format_message (url : string) : string :=
  "The JSON structure of " +:+ url +:+
  " does not meet the established format for a font data file".

(** [_prepareFontsIndex(url, options)], given the settlement of [_fetch].  An
    exception in the [then] callback rejects through [.catch(reject)]. *)
Definition _prepareFontsIndex (url : string) (res : Js.promise fetched)
    : Js.promise (option json) :=
  match res with
  | Js.Pending => Js.Pending
  | Js.Rejected e => Js.Rejected e
  | Js.Resolved res =>
      let content := content res in
      match member content "index" with
      | inl e => Js.Rejected e
      | inr index =>
          if isArray index then Js.Resolved content
          else Js.Rejected (Js.Message (index_format_message url))
      end
  end.

(** Truthiness of a value read from a document. *)
Definition truthy (v : option json) : bool :=
  match v with
  | None | Some JNull => false
  | Some (JBool b) => b
  | Some (JNumber n) => bool_decide (n ≠ 0%Z)
  | Some (JString s) => Js.truthy s
  | Some (JArray _) | Some (JObject _) => true
  end.

(** [`data:image/png;base64,${v}`] *)
Definition data_url `{Engine} (v : json) : json :=
  JString ("data:image/png;base64," +:+
           match v with JString s => s | _ => ToString v end).

(** [for (const symbol in alpha) alpha[symbol] = ...]: every entry of an
    object or array is replaced; a number or boolean has no enumerable
    property; the characters of a string cannot be assigned to (module code
    is strict, the assignment throws). *)
Definition prefix_alpha `{Engine} (alpha : json) : Js.reason + json :=
  match alpha with
  | JObject fields => inr (JObject (data_url <$> fields))
  | JArray items => inr (JArray (data_url <$> items))
  | JString (String _ _) =>
      inl (Js.TypeError "Cannot assign to read only property '0' of string")
  | v => inr v
  end.

(** The document once the loop has run: [alpha] is a reference into it. *)
Definition with_alpha (content : option json) (alpha : json) : option json :=
  match content with
  | Some (JObject fields) => Some (JObject (<["alpha" := alpha]> fields))
  | c => c
  end.

(** [_prepareFont(url, options)], given the settlement of [_fetch]. *)
Definition _prepareFont `{Engine} (url : string) (res : Js.promise fetched)
    : Js.promise (option json) :=
  match res with
  | Js.Pending => Js.Pending
  | Js.Rejected e => Js.Rejected e
  | Js.Resolved res =>
      match member (content res) "alpha" with
      | inl e => Js.Rejected e
      | inr None => Js.Rejected (Js.Message (font_format_message url))
      | inr (Some alpha) =>
          if truthy (Some alpha) then
            match prefix_alpha alpha with
            | inl e => Js.Rejected e
            | inr alpha' => Js.Resolved (with_alpha (content res) alpha')
            end
          else Js.Rejected (Js.Message (font_format_message url))
      end
  end.

End FontStorage.

(** ** typefont.js *)

Module Typefont.

Record bbox := { x0 : Z; y0 : Z; x1 : Z; y1 : Z }.

(** One symbol of the recognition result. *)
Record symbol := { text : string; confidence : Qc; box : bbox }.

(** [_symbolsToBase64(img, res, options)], with
    [minSymbolConfidence = 15] when the option is not given. *)
Definition default_minSymbolConfidence : Qc := Qc_of_Z 15.

Definition _symbolsToBase64 `{ImageDrawing.Canvas image fragment}
    (img : image) (symbols : list symbol) (minSymbolConfidence : option Qc)
    : gmap string string :=
  let threshold := default default_minSymbolConfidence minSymbolConfidence in
  fold_left
    (λ data s,
       if decide (threshold ≤ confidence s)%Qc
       then <[text s := ImageDrawing.crop img (x0 (box s)) (y0 (box s))
                                              (x1 (box s)) (y1 (box s))]> data
       else data)
    symbols ∅.

(** [for (let key in first) if (!second[key]) delete first[key];] *)
Definition prune (first second : gmap string string) : gmap string string :=
  foldr
    (λ key acc, if Js.truthy_get second key then acc else delete key acc)
    first (elements (dom first)).

(** [_symbolsToDomain(first, second)]: both objects are changed in place;
    the pair returned is their contents afterwards.  The second loop reads
    the first object as the first loop left it. *)
Definition _symbolsToDomain (first second : gmap string string)
    : gmap string string * gmap string string :=
  let first' := prune first second in
  let second' := prune second first' in
  (first', second').

(** *** The comparison of two lists of symbols *)

(** [{analytic: res[0], shape: res[1]}] *)
Record score := { analytic : Qc; shape : Qc }.

(** How [Promise.all([AnalyticPerception(..), ShapePerception(..)])] settles
    for one symbol. *)
Inductive comparison :=
| Compared (analytic shape : Qc)
| Failed (why : Js.reason).

(** The variables captured by the closures of one call of [_compare], the
    comparisons that have not settled yet (with the two images they were
    started on) and the settlement of the promise returned. *)
Record compare_state := {
  todo : nat;
  done : nat;
  result : gmap string score;
  waiting : gmap string (string * option string);
  settled : Js.promise (gmap string score)
}.

(** [_compare(first, second, options)]: the executor of the promise.  It
    reads [Object.keys(first).length] and starts one comparison for every
    key of [first]; nothing else runs before an event arrives. *)
Definition _compare (first second : gmap string string) : compare_state :=
  {| todo := size first;
     done := 0;
     result := ∅;
     waiting := map_imap (λ symbol glyph, Some (glyph, second !! symbol)) first;
     settled := Js.Pending |}.

(** [finalize(symbol, res)] *)
Definition finalize (symbol : string) (res : score) (s : compare_state)
    : compare_state :=
  let done := S (done s) in
  let result := <[symbol := res]> (result s) in
  {| todo := todo s;
     done := done;
     result := result;
     waiting := waiting s;
     settled := if decide (done = todo s) then Js.resolve result (settled s)
                else settled s |}.

(** The comparison of [symbol] settles: [.then(res => finalize(..))] or
    [.catch(reject)].  A comparison settles once. *)
Definition compare_step (symbol : string) (c : comparison) (s : compare_state)
    : compare_state :=
  match waiting s !! symbol with
  | None => s
  | Some _ =>
      let s := {| todo := todo s; done := done s; result := result s;
                  waiting := delete symbol (waiting s); settled := settled s |} in
      match c with
      | Compared a sh => finalize symbol {| analytic := a; shape := sh |} s
      | Failed e =>
          {| todo := todo s; done := done s; result := result s;
             waiting := waiting s; settled := Js.reject e (settled s) |}
      end
  end.

Definition compare_run (s : compare_state) (evs : list (string * comparison))
    : compare_state :=
  fold_left (λ s ev, compare_step ev.1 ev.2 s) evs s.

(** [_average(res)]: [calc / ll] is [0 / 0] for an empty [res]. *)
Definition _average (res : gmap string score) : Js.number :=
  let '(calc, ll) :=
    foldr (λ kv '(calc, ll),
             ((calc + (analytic kv.2 + shape kv.2) / Qc_of_Z 2)%Qc, S ll))
          (0%Qc, 0) (map_to_list res) in
  Js.div (Js.Num calc) (Js.Num (Qc_of_Z (Z.of_nat ll))).

(** *** The corpus *)

(** [font.meta]: the name, when the file gives one, and the other keys. *)
Record meta := { meta_name : option string; meta_fields : gmap string string }.

(** A font as [FontStorage.prepareFont] resolves it. *)
Record font := { font_meta : option meta; alpha : gmap string string }.

(** An element of the list [_recognize] resolves with. *)
Record entry := {
  name : string;
  similarity : Js.number;
  fields : gmap string string
}.

(** [Array.prototype.sort(comparefn)].  The sort is stable, and with a
    consistent [comparefn] every implementation returns the same list; it is
    computed here by insertion, from left to right.  [comparefn(y, x) > 0]
    puts [y] after [x]. *)
Definition positive (v : Js.number) : bool :=
  match v with Js.Num q => bool_decide (0 < q)%Qc | Js.NaN => false end.

Fixpoint insert_sorted {A} (comparefn : A → A → Js.number) (x : A) (l : list A)
    : list A :=
  match l with
  | [] => [x]
  | y :: l' =>
      if positive (comparefn y x) then x :: y :: l'
      else y :: insert_sorted comparefn x l'
  end.

Definition sort {A} (comparefn : A → A → Js.number) (l : list A) : list A :=
  fold_left (λ acc x, insert_sorted comparefn x acc) l [].

(** [(a, b) => b.similarity - a.similarity] *)
Definition by_similarity (a b : entry) : Js.number :=
  Js.sub (similarity b) (similarity a).

(** What became of the font at one position of the index. *)
Inductive task :=
| Fetching (name : string)
| Comparing (name : string) (f : font) (c : compare_state)
| Failing.

(** A call [progress(name, val, done / todo)]. *)
Record progress_call := {
  progress_name : string;
  progress_val : gmap string score;
  fractionComplete : Js.number
}.

(** The variables captured by the closures of one call of [_recognize] once
    [_prepare] has resolved: the recognized symbols (one object, shared by
    all fonts), the counters, the list under construction; the calls made to
    [progress] so far, the fonts in flight and the settlement of the promise
    returned. *)
Record recognize_state := {
  symbols : gmap string string;
  fonts_todo : nat;
  fonts_done : nat;
  ranking : list entry;
  progress : bool;
  progress_calls : list progress_call;
  tasks : list task;
  outcome : Js.promise (list entry)
}.

(** [_recognize(url, options)] from the point where [_prepare] has resolved
    with the index [fonts] and the recognized symbols: one request per name
    of the index is started. *)
Definition _recognize (fonts : list string) (symbols : gmap string string)
    (progress : bool) : recognize_state :=
  {| symbols := symbols;
     fonts_todo := length fonts;
     fonts_done := 0;
     ranking := [];
     progress := progress;
     progress_calls := [];
     tasks := Fetching <$> fonts;
     outcome := Js.Pending |}.

(** [finalize(name, val, font)] of [_recognize]. *)
Definition finalize_font (name_ : string) (val : gmap string score) (f : font)
    (s : recognize_state) : recognize_state :=
  let meta := default {| meta_name := None; meta_fields := ∅ |} (font_meta f) in
  let meta :=
    {| name := match meta_name meta with
               | Some n => if Js.truthy n then n else name_
               | None => name_
               end;
       similarity := _average val;
       fields := meta_fields meta |} in
  let result := ranking s ++ [meta] in
  let calls :=
    if progress s then
      progress_calls s ++
        [{| progress_name := name_; progress_val := val;
            fractionComplete :=
              Js.div (Js.Num (Qc_of_Z (Z.of_nat (fonts_done s))))
                     (Js.Num (Qc_of_Z (Z.of_nat (fonts_todo s)))) |}]
    else progress_calls s in
  let done := S (fonts_done s) in
  if decide (done = fonts_todo s) then
    let result := sort by_similarity result in
    {| symbols := symbols s; fonts_todo := fonts_todo s; fonts_done := done;
       ranking := result; progress := progress s; progress_calls := calls;
       tasks := tasks s; outcome := Js.resolve result (outcome s) |}
  else
    {| symbols := symbols s; fonts_todo := fonts_todo s; fonts_done := done;
       ranking := result; progress := progress s; progress_calls := calls;
       tasks := tasks s; outcome := outcome s |}.

Definition set_task (i : nat) (t : task) (s : recognize_state) : recognize_state :=
  {| symbols := symbols s; fonts_todo := fonts_todo s; fonts_done := fonts_done s;
     ranking := ranking s; progress := progress s;
     progress_calls := progress_calls s;
     tasks := <[i := t]> (tasks s); outcome := outcome s |}.

Definition reject_all (e : Js.reason) (s : recognize_state) : recognize_state :=
  {| symbols := symbols s; fonts_todo := fonts_todo s; fonts_done := fonts_done s;
     ranking := ranking s; progress := progress s;
     progress_calls := progress_calls s;
     tasks := tasks s; outcome := Js.reject e (outcome s) |}.

(** What the environment delivers: the request for the font at position [i]
    of the index settles, or one comparison of that font settles. *)
Inductive event :=
| FontSettled (i : nat) (r : Js.reason + font)
| SymbolSettled (i : nat) (symbol : string) (c : comparison).

(** The [then] callback of [FontStorage.prepareFont(..)]: the shared
    [symbols] and [font.alpha] are reduced in place, then [_compare] is
    called on them. *)
Definition font_loaded (i : nat) (name_ : string) (f : font) (s : recognize_state)
    : recognize_state :=
  let '(symbols', alpha') := _symbolsToDomain (symbols s) (alpha f) in
  let f' := {| font_meta := font_meta f; alpha := alpha' |} in
  {| symbols := symbols'; fonts_todo := fonts_todo s; fonts_done := fonts_done s;
     ranking := ranking s; progress := progress s;
     progress_calls := progress_calls s;
     tasks := <[i := Comparing name_ f' (_compare symbols' alpha')]> (tasks s);
     outcome := outcome s |}.

(** One event.  The promise of [_compare] runs
    [.then(fin => finalize(name, fin, font)).catch(reject)] when it settles;
    callbacks chained to promises run in the order in which the promises
    settle, so the settlement and the callback are one step. *)
Definition step (s : recognize_state) (ev : event) : recognize_state :=
  match ev with
  | FontSettled i r =>
      match tasks s !! i with
      | Some (Fetching name_) =>
          match r with
          | inr f => font_loaded i name_ f s
          | inl e => reject_all e (set_task i Failing s)
          end
      | _ => s
      end
  | SymbolSettled i symbol c =>
      match tasks s !! i with
      | Some (Comparing name_ f cs) =>
          let cs' := compare_step symbol c cs in
          let s := set_task i (Comparing name_ f cs') s in
          match settled cs, settled cs' with
          | Js.Pending, Js.Resolved fin => finalize_font name_ fin f s
          | Js.Pending, Js.Rejected e => reject_all e s
          | _, _ => s
          end
      | _ => s
      end
  end.

Definition run (s : recognize_state) (evs : list event) : recognize_state :=
  fold_left step evs s.

(** *** The preparation of the image *)




End Typefont.


(** * Vocabulary of the properties *)

Module Spec.
Import Typefont.

(** The crop stored for a symbol. *)
Definition crop_of `{ImageDrawing.Canvas image fragment}
    (img : image) (s : symbol) : string :=
  ImageDrawing.crop img (x0 (box s)) (y0 (box s)) (x1 (box s)) (y1 (box s)).

(** The symbols of [symbols] labelled [label] that pass the threshold, in
    input order. *)
Definition accepted (threshold : Qc) (label : string) (symbols : list symbol)
    : list symbol :=
  filter (λ s, text s = label ∧ (threshold ≤ confidence s)%Qc) symbols.

(** A glyph set maps labels to images; an image is a [data:] URL, never the
    empty string. *)
Definition GlyphSet (o : gmap string string) : Prop :=
  map_Forall (λ _ glyph, Js.truthy glyph = true) o.

(** The loop of [_getBinarizedMatrix] visits one byte in four. *)
Fixpoint reds (data : list Z) : list Z :=
  match data with
  | [] => []
  | red :: tl =>
      red :: match tl with _ :: _ :: _ :: rest => reds rest | _ => [] end
  end.

(** The state of the scan after [n] pixels of a canvas [W] wide. *)
Definition scanned (W n : nat) (s : ShapePerception.scan) : Prop :=
  (n = 0 ∧ ShapePerception.matrix s = [] ∧
   ShapePerception.w s = 0 ∧ ShapePerception.j s = 0) ∨
  (length (ShapePerception.matrix s) = S (ShapePerception.j s) ∧
   1 ≤ ShapePerception.w s ≤ W ∧
   ShapePerception.j s * W + ShapePerception.w s = n ∧
   ∀ i row, ShapePerception.matrix s !! i = Some row →
            length row = if decide (i = ShapePerception.j s)
                         then ShapePerception.w s else W).

(** A matrix of [r] rows of [c] cells. *)
Definition rectangular (r c : nat) (m : list (list Z)) : Prop :=
  length m = r ∧ Forall (λ row, length row = c) m.

(** The Hamming distance of two sequences: the number of positions at which
    they disagree; of two matrices: the sum over their rows. *)
Definition hamming_row (row row1 : list Z) : nat :=
  length (filter (λ p, p.1 ≠ p.2) (zip row row1)).

Definition hammingDistance (m m1 : list (list Z)) : nat :=
  sum_list (zip_with hamming_row m m1).

(** Two matrices that disagree in every cell. *)
Definition inverted (m m1 : list (list Z)) : Prop :=
  Forall2 (Forall2 (λ a b : Z, a ≠ b)) m m1.

(** [100 − (distance / (rows × cols)) × 100] *)
Definition hamming_similarity (distance rows cols : nat) : Qc :=
  (Qc_of_Z 100
   - Qc_of_Z (Z.of_nat distance) / Qc_of_Z (Z.of_nat (rows * cols)) * Qc_of_Z 100)%Qc.

(** The scores of a symbol are percentages. *)
Definition score_in_range (s : score) : Prop :=
  ((0 ≤ analytic s)%Qc ∧ (analytic s ≤ Qc_of_Z 100)%Qc) ∧
  ((0 ≤ shape s)%Qc ∧ (shape s ≤ Qc_of_Z 100)%Qc).

(** What holds of the variables of a call of [_compare] at any time: every
    comparison that is neither counted nor waiting has failed, and the
    promise is resolved only when all are counted, with a non-empty
    aggregate. *)
Definition compare_inv (s : compare_state) : Prop :=
  done s + size (waiting s) ≤ todo s ∧
  (∀ r, settled s = Js.Resolved r → todo s ≤ done s ∧ r ≠ ∅).

(** An entry whose similarity is a number. *)
Definition numeric (e : entry) : Prop := ∃ q, similarity e = Js.Num q.

(** [a] may stand before [b] in a list sorted by similarity, descending. *)
Definition ge_similarity (a b : entry) : Prop :=
  ∃ x y, similarity a = Js.Num x ∧ similarity b = Js.Num y ∧ (y ≤ x)%Qc.

(** Sorted by the [similarity] field in descending order. *)
Definition descending (l : list entry) : Prop :=
  ∀ i j a b, i ≤ j → l !! i = Some a → l !! j = Some b → ge_similarity a b.

(** A font whose request or comparisons may still call [finalize]. *)
Definition live (t : task) : bool :=
  match t with
  | Fetching _ => true
  | Comparing _ _ cs =>
      match settled cs with Js.Pending => true | _ => false end
  | Failing => false
  end.

Definition count_live (l : list task) : nat :=
  sum_list ((λ t, if live t then 1 else 0) <$> l).

(** A font whose request or aggregation was rejected. *)
Definition failed (t : task) : Prop :=
  match t with
  | Fetching _ => False
  | Comparing _ _ cs => ∃ e, settled cs = Js.Rejected e
  | Failing => True
  end.

(** [k / n] *)
Definition fraction (k n : nat) : Js.number :=
  Js.div (Js.Num (Qc_of_Z (Z.of_nat k))) (Js.Num (Qc_of_Z (Z.of_nat n))).

(** What holds of the variables of a call of [_recognize] at any time. *)
Record recognize_inv (s : recognize_state) : Prop := {
  inv_count : fonts_done s + count_live (tasks s) ≤ fonts_todo s;
  inv_ranking : length (ranking s) = fonts_done s;
  inv_numeric : Forall numeric (ranking s);
  inv_compare :
    ∀ i n f cs, tasks s !! i = Some (Comparing n f cs) → compare_inv cs;
  inv_failed :
    ∀ i t, tasks s !! i = Some t → failed t → ∃ e, outcome s = Js.Rejected e;
  inv_resolved :
    ∀ l, outcome s = Js.Resolved l →
         fonts_todo s ≤ fonts_done s ∧ length l = fonts_todo s ∧ descending l;
  inv_progress :
    progress s = true →
    length (progress_calls s) = fonts_done s ∧
    ∀ k c, progress_calls s !! k = Some c →
           fractionComplete c = fraction k (fonts_todo s)
}.

(** The comparisons started for the font at position [i]. *)
Definition compared_symbols (i : nat) (s : recognize_state) : gset string :=
  match tasks s !! i with
  | Some (Comparing _ _ cs) => dom (waiting cs)
  | _ => ∅
  end.

(** The cell [_getBinarizedMatrix] makes of a red byte. *)
Definition bit (red : Z) : Z := if decide (red = 255%Z) then 1%Z else 0%Z.

(** What holds of a call of [_compare] on [first] after the events [evs]:
    the scores counted are those of distinct symbols of [first], each as an
    event delivered it, and the promise is resolved with all of them. *)
Definition compare_exact (first : gmap string string)
    (evs : list (string * comparison)) (s : compare_state) : Prop :=
  todo s = size first ∧
  size (result s) = done s ∧
  dom (result s) ∪ dom (waiting s) ⊆ dom first ∧
  dom (result s) ## dom (waiting s) ∧
  (∀ k sc, result s !! k = Some sc →
           (k, Compared (analytic sc) (shape sc)) ∈ evs) ∧
  (∀ r, settled s = Js.Resolved r → r = result s ∧ dom r = dom first).

(** The event that delivers a score. *)
Definition compared (ks : string * score) : string * comparison :=
  (ks.1, Compared (analytic ks.2) (shape ks.2)).

(** A frame made of whole pixels. *)
Definition bytes (ps : list (Z * Z * Z * Z)) : list Z :=
  ps ≫= λ '(r, g, b, a), [r; g; b; a].


(** What [reverse] makes of a pixel. *)
Definition reversed_pixel (p : Z * Z * Z * Z) : Z * Z * Z * Z :=
  let '(r, g, b, a) := p in ((255 - r)%Z, (255 - g)%Z, (255 - b)%Z, a).


(** A byte. *)
Definition byte (x : Z) : Prop := (0 ≤ x ∧ x ≤ 255)%Z.

(** The sum over the pixels of a frame of the mean of the four bytes. *)
Definition pixel_sum (ps : list (Z * Z * Z * Z)) : Qc :=
  foldr (λ '(r, g, b, a) acc, (Qc_of_Z (r + g + b + a) / Qc_of_Z 4 + acc)%Qc)
        0%Qc ps.

(** A pixel of four bytes. *)
Definition byte_pixel (p : Z * Z * Z * Z) : Prop :=
  let '(r, g, b, a) := p in byte r ∧ byte g ∧ byte b ∧ byte a.

(** A number of the closed interval from 0 to 100. *)
Definition percentage (v : Js.number) : Prop :=
  ∃ q, v = Js.Num q ∧ (0 ≤ q)%Qc ∧ (q ≤ Qc_of_Z 100)%Qc.

End Spec.

(** * Concrete inputs *)

Module Examples.
Import Typefont.

(** Two 2×2 drawings that differ in their last pixel. *)
Definition img_a : ShapePerception.drawing :=
  {| ShapePerception.width := 2; ShapePerception.height := 2;
     ShapePerception.data :=
       [255; 0; 0; 255;  0; 0; 0; 255;  0; 0; 0; 255;  255; 0; 0; 255]%Z |}.

Definition img_b : ShapePerception.drawing :=
  {| ShapePerception.width := 2; ShapePerception.height := 2;
     ShapePerception.data :=
       [255; 0; 0; 255;  0; 0; 0; 255;  0; 0; 0; 255;  0; 0; 0; 255]%Z |}.

(** An image library whose difference is always a quarter. *)
Definition quarter : AnalyticPerception.Jimp unit :=
  {| AnalyticPerception.resize := λ img _ _, img;
     AnalyticPerception.diff_percent := λ _ _ _, (1 / Qc_of_Z 4)%Qc |}.

Definition no_options : AnalyticPerception.options :=
  {| AnalyticPerception.analyticComparisonThreshold := None;
     AnalyticPerception.analyticComparisonScaleToSameSize := None;
     AnalyticPerception.analyticComparisonSize := None |}.

(** The glyphs recognized in an image: an [a] and a [b]. *)
Definition recognized : gmap string string :=
  {[ "a" := "data:image/png;base64,Ra"; "b" := "data:image/png;base64,Rb" ]}.

(** A font that has both letters, one that has only the [a]. *)
Definition full_font : font :=
  {| font_meta := Some {| meta_name := Some "Full"; meta_fields := ∅ |};
     alpha := {[ "a" := "data:image/png;base64,Fa";
                 "b" := "data:image/png;base64,Fb" ]} |}.

(** A font with both letters whose file has no [meta]. *)
Definition plain_font : font :=
  {| font_meta := None;
     alpha := {[ "a" := "data:image/png;base64,Pa";
                 "b" := "data:image/png;base64,Pb" ]} |}.

Definition narrow_font : font :=
  {| font_meta := None; alpha := {[ "a" := "data:image/png;base64,Na" ]} |}.

Definition perfect : comparison := Compared (Qc_of_Z 100) (Qc_of_Z 100).
Definition mismatch : comparison := Compared 0%Qc 0%Qc.

(** A corpus of two fonts with both letters: the second one, a complete
    mismatch, finishes first; the first one, a perfect match, last. *)
Definition scenario_c : list event :=
  [ FontSettled 0 (inr full_font); FontSettled 1 (inr plain_font);
    SymbolSettled 1 "a" mismatch; SymbolSettled 1 "b" mismatch;
    SymbolSettled 0 "a" perfect; SymbolSettled 0 "b" perfect ].

(** A corpus of one font, compared on one letter. *)
Definition single_font : list event :=
  [ FontSettled 0 (inr narrow_font); SymbolSettled 0 "a" perfect ].

(** A browser whose images are all white and 3 × 5 pixels large. *)
Definition white_raster : ImageDrawing.Raster unit :=
  {| ImageDrawing.natural_width := λ _, 3;
     ImageDrawing.natural_height := λ _, 5;
     ImageDrawing.drawImage := λ _ width height, replicate (4 * (width * height)) 255%Z;
     ImageDrawing.drawImage_length := λ _ width height,
       length_replicate (4 * (width * height)) 255%Z |}.


(** A canvas that encodes every fragment alike. *)
Definition plain_canvas : ImageDrawing.Canvas unit unit :=
  {| ImageDrawing.getImageData := λ _ _ _ _ _, tt;
     ImageDrawing.toDataURL := λ _, "data:image/png;base64,AA" |}.

(** A recognition result: a confident [a] and a doubtful [b]. *)
Definition two_symbols : list symbol :=
  [ {| text := "a"; confidence := Qc_of_Z 90;
       box := {| x0 := 0; y0 := 0; x1 := 8; y1 := 8 |} |};
    {| text := "b"; confidence := Qc_of_Z 20;
       box := {| x0 := 8; y0 := 0; x1 := 16; y1 := 8 |} |} ].

(** A font with neither of the two letters. *)
Definition odd_font : font :=
  {| font_meta := None; alpha := {[ "c" := "data:image/png;base64,Oc" ]} |}.

(** A browser that parses nothing. *)
Definition no_engine : FontStorage.Engine :=
  {| FontStorage.JSON_parse := λ _, None; FontStorage.ToString := λ _, "null" |}.

(** A font file with one glyph. *)
Definition font_file : FontStorage.json :=
  FontStorage.JObject
    {[ "alpha" := FontStorage.JObject {[ "a" := FontStorage.JString "QUJD" ]} ]}.

End Examples.

(** * Properties *)

Import Typefont Spec Examples.

(** ** Glyph extraction *)

Section GlyphExtractor.
Context `{ImageDrawing.Canvas image fragment}.

Lemma extract_lookup_from img threshold label symbols (data : gmap string string) :
  fold_left
    (λ data s,
       if decide (threshold ≤ confidence s)%Qc
       then <[text s := crop_of img s]> data else data)
    symbols data !! label
  = match list.last (accepted threshold label symbols) with
    | Some s => Some (crop_of img s)
    | None => data !! label
    end.
Proof.
  revert data. induction symbols as [|s symbols IH]; intros data; [done|].
  cbn [fold_left]. rewrite IH. unfold accepted. rewrite filter_cons.
  destruct (decide (threshold ≤ confidence s)%Qc) as [Hc|Hc].
  - destruct (decide (text s = label)) as [Ht|Ht].
    + rewrite decide_True by done. rewrite last_cons.
      destruct (list.last (filter _ symbols)); [done|].
      by rewrite <- Ht, lookup_insert_eq.
    + rewrite decide_False by tauto.
      destruct (list.last (filter _ symbols)); [done|].
      by rewrite lookup_insert_ne.
  - rewrite decide_False by tauto. done.
Qed.

Lemma extract_lookup img symbols minSymbolConfidence label :
  _symbolsToBase64 img symbols minSymbolConfidence !! label
  = crop_of img <$>
      list.last (accepted (default default_minSymbolConfidence minSymbolConfidence)
                          label symbols).
Proof.
  unfold _symbolsToBase64. cbv zeta.
  etrans; [apply (extract_lookup_from img _ label symbols ∅)|].
  rewrite lookup_empty. by destruct (list.last _).
Qed.

Lemma last_is_Some {A} (l : list A) : is_Some (list.last l) ↔ l ≠ [].
Proof.
  destruct l as [|x l] using rev_ind; [split; [by intros [? ?]|done]|].
  rewrite last_snoc. split; [intros _ Heq; by destruct l|eauto].
Qed.

(** C6.  The glyph set built by [_symbolsToBase64] has exactly the labels of
    the symbols whose confidence reaches the threshold (15 unless the option
    is given); the image stored under a label is the crop of the last such
    symbol in input order; without symbols the set is empty. *)
Theorem symbolsToBase64_last_write_wins img symbols minSymbolConfidence :
  let threshold := default default_minSymbolConfidence minSymbolConfidence in
  let data := _symbolsToBase64 img symbols minSymbolConfidence in
  default_minSymbolConfidence = Qc_of_Z 15 ∧
  (∀ label, label ∈ dom data ↔
     ∃ s, s ∈ symbols ∧ text s = label ∧ (threshold ≤ confidence s)%Qc) ∧
  (∀ label, data !! label
            = crop_of img <$> list.last (accepted threshold label symbols)) ∧
  _symbolsToBase64 img [] minSymbolConfidence = ∅.
Proof.
  cbv zeta. split; [done|]. split; [|split; [apply extract_lookup|done]].
  intros label. rewrite elem_of_dom, extract_lookup, fmap_is_Some, last_is_Some.
  unfold accepted. split.
  - intros Hne. destruct (filter _ symbols) as [|s l] eqn:Hf; [done|].
    assert (s ∈ filter (λ s, text s = label ∧
      (default default_minSymbolConfidence minSymbolConfidence ≤ confidence s)%Qc)
      symbols) as Hin by (rewrite Hf; left).
    apply list_elem_of_filter in Hin. naive_solver.
  - intros (s & Hin & Ht & Hc) Hnil.
    assert (s ∈ filter (λ s, text s = label ∧
      (default default_minSymbolConfidence minSymbolConfidence ≤ confidence s)%Qc)
      symbols) as Hin' by (apply list_elem_of_filter; done).
    rewrite Hnil in Hin'. by apply elem_of_nil in Hin'.
Qed.

End GlyphExtractor.

(** ** Domain reduction *)

Lemma prune_lookup_from second (keys : list string) (m : gmap string string) k :
  foldr (λ key acc, if Js.truthy_get second key then acc else delete key acc)
        m keys !! k
  = if decide (k ∈ keys ∧ Js.truthy_get second k = false) then None else m !! k.
Proof.
  induction keys as [|key keys IH]; cbn [foldr].
  - rewrite decide_False; [done|]. intros [Hin _]. by apply elem_of_nil in Hin.
  - destruct (Js.truthy_get second key) eqn:Hkey.
    + rewrite IH. repeat case_decide; try done.
      * exfalso. set_solver.
      * exfalso. destruct_and!. set_unfold. destruct_or!; [congruence|tauto].
    + destruct (decide (k = key)) as [->|Hne].
      * rewrite lookup_delete_eq. rewrite decide_True; [done|]. set_solver.
      * rewrite lookup_delete_ne by done. rewrite IH.
        repeat case_decide; try done; exfalso; set_solver.
Qed.

Lemma prune_lookup first second k :
  prune first second !! k
  = if Js.truthy_get second k then first !! k else None.
Proof.
  unfold prune. rewrite prune_lookup_from.
  destruct (Js.truthy_get second k) eqn:Hk.
  - rewrite decide_False; [done|]. by intros [_ ?].
  - case_decide as Hd; [done|].
    destruct (first !! k) eqn:Hf; [|done].
    exfalso. apply Hd. split; [|done].
    apply elem_of_elements, elem_of_dom. eauto.
Qed.

Lemma truthy_get_GlyphSet o k :
  GlyphSet o → Js.truthy_get o k = bool_decide (k ∈ dom o).
Proof.
  intros Ho. unfold Js.truthy_get. destruct (o !! k) as [v|] eqn:Hk.
  - rewrite (Ho k v Hk). symmetry. apply bool_decide_eq_true.
    apply elem_of_dom; eauto.
  - symmetry. apply bool_decide_eq_false. by apply not_elem_of_dom.
Qed.

Lemma prune_GlyphSet first second : GlyphSet first → GlyphSet (prune first second).
Proof.
  intros Hf k v. rewrite prune_lookup. destruct (Js.truthy_get second k); [|done].
  apply Hf.
Qed.

Lemma dom_prune first second :
  GlyphSet second → dom (prune first second) = dom first ∩ dom second.
Proof.
  intros Hs. apply set_eq. intros k.
  rewrite elem_of_intersection, !elem_of_dom, prune_lookup.
  rewrite (truthy_get_GlyphSet second k Hs).
  case_bool_decide as Hk; rewrite elem_of_dom in Hk.
  - tauto.
  - split; [by intros [? ?]|tauto].
Qed.



(** ** The shape comparator *)

Section Shape.
Import ShapePerception.

Lemma scan_data_reds_le width n data s :
  length data ≤ n →
  scan_data width data s = for_each (scan_pixel width) (reds data) s.
Proof.
  revert data s. induction n as [|n IH]; intros data s Hlen.
  - destruct data; [done|]. cbn in Hlen. lia.
  - destruct data as [|red tl]; [done|]. cbn [scan_data reds for_each].
    destruct (scan_pixel width red s) as [e|s']; [done|].
    destruct tl as [|? [|? [|? rest]]]; try done.
    apply IH. cbn in Hlen. lia.
Qed.

Lemma scan_data_reds width data s :
  scan_data width data s = for_each (scan_pixel width) (reds data) s.
Proof. by apply (scan_data_reds_le width (length data)). Qed.

Lemma length_reds_4 n data : length data = 4 * n → length (reds data) = n.
Proof.
  revert data. induction n as [|n IH]; intros data Hl.
  - by destruct data.
  - destruct data as [|? [|? [|? [|? rest]]]]; cbn in Hl; try lia.
    cbn [reds length]. f_equal. apply IH. lia.
Qed.

Lemma scan_pixel_scanned W n red s :
  0 < W → scanned W n s →
  ∃ s', scan_pixel W red s = inr s' ∧ scanned W (S n) s'.
Proof.
  intros HW [(-> & Hm & Hw & Hj)|(Hlen & Hw & Hn & Hrows)].
  - unfold scan_pixel. rewrite Hm, Hw, Hj.
    rewrite decide_False by lia. rewrite decide_True by done. cbn.
    eexists; split; [done|]. right. cbn. repeat split; try lia.
    intros [|i] row Hrow; cbn in Hrow; [by simplify_eq|done].
  - unfold scan_pixel. destruct (decide (w s = W)) as [HwW|HwW].
    + rewrite decide_True by done.
      rewrite lookup_app_r by lia. replace (S (j s) - length (matrix s)) with 0 by lia.
      cbn [lookup list_lookup]. eexists; split; [done|]. right. cbn.
      rewrite length_insert, length_app. cbn. repeat split; try lia.
      intros i row Hrow. apply list_lookup_insert_Some in Hrow.
      destruct Hrow as [(<- & <- & _)|(Hne & Hrow)].
      * by destruct (decide (S (j s) = S (j s))).
      * rewrite decide_False by done.
        apply lookup_app_Some in Hrow as [Hrow|[Hge Hrow]].
        -- rewrite (Hrows i row Hrow). case_decide; lia.
        -- apply list_lookup_singleton_Some in Hrow as [Hi _]. lia.
    + rewrite decide_False by lia.
      destruct (matrix s !! j s) as [row|] eqn:Hrow.
      2:{ apply lookup_ge_None in Hrow. lia. }
      eexists; split; [done|]. right. cbn.
      rewrite length_insert. repeat split; try lia.
      intros i row' Hrow'. apply list_lookup_insert_Some in Hrow'.
      destruct Hrow' as [(<- & <- & _)|(Hne & Hrow')].
      * destruct (decide (j s = j s)); [|done]. rewrite length_app. cbn.
        pose proof (Hrows _ _ Hrow) as Hr. rewrite decide_True in Hr by done. lia.
      * rewrite decide_False by done.
        pose proof (Hrows _ _ Hrow') as Hr. by rewrite decide_False in Hr.
Qed.

Lemma for_each_scanned W pixels n s :
  0 < W → scanned W n s →
  ∃ s', for_each (scan_pixel W) pixels s = inr s' ∧
        scanned W (n + length pixels) s'.
Proof.
  intros HW. revert n s. induction pixels as [|red pixels IH]; intros n s Hs.
  - exists s. rewrite Nat.add_0_r. done.
  - destruct (scan_pixel_scanned W n red s HW Hs) as (s1 & Heq & Hs1).
    cbn [for_each]. rewrite Heq.
    destruct (IH (S n) s1 Hs1) as (s' & Heq' & Hs').
    exists s'. split; [done|]. cbn [length].
    by replace (n + S (length pixels)) with (S n + length pixels) by lia.
Qed.

(** On a canvas of positive width the scan never throws; all rows but the
    last are full and no row is empty. *)
Lemma getBinarizedMatrix_scanned img :
  0 < width img →
  ∃ s, _getBinarizedMatrix img = inr (matrix s) ∧
       scanned (width img) (length (reds (data img))) s.
Proof.
  intros HW. unfold _getBinarizedMatrix. rewrite scan_data_reds.
  destruct (for_each_scanned (width img) (reds (data img)) 0
              {| matrix := []; w := 0; j := 0 |} HW) as (s & Heq & Hs).
  { left. done. }
  exists s. rewrite Heq. done.
Qed.

Lemma getBinarizedMatrix_rectangular img :
  well_formed img → 0 < width img → 0 < height img →
  ∃ m, _getBinarizedMatrix img = inr m ∧ rectangular (height img) (width img) m.
Proof.
  intros Hwf HW HH.
  destruct (getBinarizedMatrix_scanned img HW) as (s & Heq & Hs).
  rewrite (length_reds_4 (width img * height img)) in Hs by done.
  exists (matrix s). split; [done|].
  destruct Hs as [(Hn & _)|(Hlen & Hw & Hn & Hrows)]; [nia|].
  assert (j s < height img) as Hj1 by nia.
  assert (height img ≤ S (j s)) as Hj2 by nia.
  assert (S (j s) = height img) as Hj by lia.
  assert (w s = width img) as Hw'.
  { rewrite <- Hj in Hn. lia. }
  split; [lia|]. apply Forall_lookup. intros i row Hi.
  rewrite (Hrows i row Hi). case_decide; lia.
Qed.

Lemma drop_cons_inv {A} a (l : list A) x rest :
  drop a l = x :: rest → l !! a = Some x ∧ drop (S a) l = rest.
Proof.
  intros Hd. split.
  - rewrite <- (Nat.add_0_r a), <- lookup_drop, Hd. done.
  - replace (S a) with (a + 1) by lia. rewrite <- drop_drop, Hd. done.
Qed.

(** The inner loop counts the disagreements of two rows of equal length. *)
Lemma row_loop m m1 i row row1 :
  m !! i = Some row → m1 !! i = Some row1 →
  ∀ rest rest1 a dist,
    drop a row = rest → drop a row1 = rest1 →
    length rest = length rest1 →
    for_each (λ j, compare_cell m m1 i j) (seq a (length rest)) dist
    = inr (dist + hamming_row rest rest1).
Proof.
  intros Hrow Hrow1. induction rest as [|x rest IH];
    intros rest1 a dist Hd Hd1 Hlen.
  - destruct rest1; [|done]. cbn. by rewrite Nat.add_0_r.
  - destruct rest1 as [|y rest1]; [done|].
    apply drop_cons_inv in Hd as [Hx Hd]. apply drop_cons_inv in Hd1 as [Hy Hd1].
    cbn [length seq for_each]. unfold compare_cell at 1, cell.
    rewrite Hrow, Hrow1, Hx, Hy.
    rewrite (IH rest1 (S a)) by (done || (cbn in Hlen; lia)).
    f_equal. unfold hamming_row, differs. cbn [zip_with]. rewrite filter_cons. cbn [fst snd].
    destruct (decide (x = y)) as [->|Hne].
    + rewrite bool_decide_eq_false_2 by (by intros ?).
      rewrite decide_False by (by intros ?). done.
    + rewrite bool_decide_eq_true_2 by congruence.
      rewrite decide_True by done. cbn. lia.
Qed.

(** The outer loop adds up the rows. *)
Lemma rows_loop c m m1 :
  ∀ rest rest1 a dist,
    drop a m = rest → drop a m1 = rest1 →
    length rest = length rest1 →
    Forall (λ row, length row = c) rest →
    Forall (λ row, length row = c) rest1 →
    for_each (λ i, for_each (λ j, compare_cell m m1 i j) (seq 0 c))
             (seq a (length rest)) dist
    = inr (dist + hammingDistance rest rest1).
Proof.
  induction rest as [|row rest IH];
    intros rest1 a dist Hd Hd1 Hlen Hc Hc1.
  - destruct rest1; [|done]. cbn. by rewrite Nat.add_0_r.
  - destruct rest1 as [|row1 rest1]; [done|].
    apply drop_cons_inv in Hd as [Hrow Hd]. apply drop_cons_inv in Hd1 as [Hrow1 Hd1].
    apply Forall_cons_iff in Hc as [Hr Hc]. apply Forall_cons_iff in Hc1 as [Hr1 Hc1].
    cbn [length seq for_each].
    rewrite <- Hr at 1.
    rewrite (row_loop m m1 a row row1 Hrow Hrow1 row row1 0) by (done || lia).
    rewrite (IH rest1 (S a)) by (done || (cbn in Hlen; lia)).
    f_equal. unfold hammingDistance. cbn. lia.
Qed.

Lemma distance_hamming r c m m1 :
  rectangular r c m → rectangular r c m1 →
  distance m m1 r c = inr (hammingDistance m m1).
Proof.
  intros [Hr Hc] [Hr1 Hc1]. unfold distance. rewrite <- Hr.
  rewrite (rows_loop c m m1 m m1 0 0) by (done || lia). done.
Qed.

(** Each iteration adds at most one to the distance. *)
Lemma row_loop_bound m m1 i cols dist dist' :
  for_each (λ j, compare_cell m m1 i j) cols dist = inr dist' →
  dist ≤ dist' ≤ dist + length cols.
Proof.
  revert dist. induction cols as [|j cols IH]; intros dist Heq; cbn in Heq.
  - simplify_eq. cbn. lia.
  - unfold compare_cell in Heq at 1.
    destruct (cell m i j) as [|a0]; [done|]. destruct (cell m1 i j) as [|b0]; [done|].
    apply IH in Heq. cbn [length]. destruct (differs a0 b0); lia.
Qed.

Lemma rows_loop_bound m m1 c rows dist dist' :
  for_each (λ i, for_each (λ j, compare_cell m m1 i j) (seq 0 c)) rows dist
  = inr dist' →
  dist ≤ dist' ≤ dist + length rows * c.
Proof.
  revert dist. induction rows as [|i rows IH]; intros dist Heq; cbn in Heq.
  - simplify_eq. cbn. lia.
  - destruct (for_each _ (seq 0 c) dist) as [|d1] eqn:Hrow; [done|].
    apply row_loop_bound in Hrow. rewrite length_seq in Hrow.
    apply IH in Heq. cbn [length]. lia.
Qed.

Lemma distance_bound m m1 r c dist :
  distance m m1 r c = inr dist → dist ≤ r * c.
Proof.
  intros Heq. apply rows_loop_bound in Heq. rewrite length_seq in Heq. lia.
Qed.

Lemma Qc_of_nat_nonzero n : 0 < n → Qc_of_Z (Z.of_nat n) ≠ 0%Qc.
Proof. intros Hn Heq. rewrite <- Z2Qc_inj_0 in Heq. apply Z2Qc_inj in Heq. lia. Qed.

Lemma similarity_num dist r c :
  0 < r * c → similarity dist r c = Js.Num (hamming_similarity dist r c).
Proof.
  intros Hrc. unfold similarity, hamming_similarity, Js.div.
  rewrite decide_False by by apply Qc_of_nat_nonzero. done.
Qed.

(** [100 - x * 100] maps the unit interval into the percentages. *)
Lemma percent_range (x : Qc) :
  (0 ≤ x)%Qc → (x ≤ 1)%Qc →
  (0 ≤ Qc_of_Z 100 - x * Qc_of_Z 100)%Qc ∧
  (Qc_of_Z 100 - x * Qc_of_Z 100 ≤ Qc_of_Z 100)%Qc.
Proof.
  intros H0 H1.
  assert (0 ≤ Qc_of_Z 100)%Qc as H100.
  { rewrite <- Z2Qc_inj_0. by apply (proj1 (Z2Qc_inj_le 0 100)). }
  split.
  - apply (proj1 (Qcle_minus_iff _ _)).
    rewrite <- (Qcmult_1_l (Qc_of_Z 100)) at 2.
    by apply Qcmult_le_mono_nonneg_r.
  - apply (proj2 (Qcle_minus_iff _ _)).
    replace (Qc_of_Z 100 + - (Qc_of_Z 100 - x * Qc_of_Z 100))%Qc
      with (x * Qc_of_Z 100)%Qc by ring.
    by apply Qcmult_nonneg_nonneg.
Qed.

Lemma ratio_range (d n : nat) :
  d ≤ n → 0 < n →
  (0 ≤ Qc_of_Z (Z.of_nat d) / Qc_of_Z (Z.of_nat n))%Qc ∧
  (Qc_of_Z (Z.of_nat d) / Qc_of_Z (Z.of_nat n) ≤ 1)%Qc.
Proof.
  intros Hd Hn.
  assert (0 < Qc_of_Z (Z.of_nat n))%Qc as Hpos.
  { rewrite <- Z2Qc_inj_0. apply (proj1 (Z2Qc_inj_lt 0 (Z.of_nat n))). lia. }
  assert (0 ≤ Qc_of_Z (Z.of_nat d))%Qc as Hd0.
  { rewrite <- Z2Qc_inj_0. apply (proj1 (Z2Qc_inj_le 0 (Z.of_nat d))). lia. }
  assert (Qc_of_Z (Z.of_nat d) ≤ Qc_of_Z (Z.of_nat n))%Qc as Hdn.
  { apply (proj1 (Z2Qc_inj_le (Z.of_nat d) (Z.of_nat n))). lia. }
  pose proof (Qcinv_pos _ Hpos) as Hinv.
  unfold Qcdiv. split.
  - apply Qcmult_nonneg_nonneg; [done|]. by apply Qclt_le_weak.
  - rewrite <- (Qcmult_inv_r (Qc_of_Z (Z.of_nat n))) by by apply Qc_of_nat_nonzero.
    apply Qcmult_le_mono_nonneg_r; [by apply Qclt_le_weak|done].
Qed.

Lemma hamming_similarity_range dist r c :
  dist ≤ r * c → 0 < r * c → percentage (Js.Num (hamming_similarity dist r c)).
Proof.
  intros Hd Hrc. eexists; split; [done|]. unfold hamming_similarity.
  destruct (ratio_range dist (r * c) Hd Hrc). by apply percent_range.
Qed.

Lemma compare_matrices_rectangular r c m m1 :
  0 < r → 0 < c → rectangular r c m → rectangular r c m1 →
  compare_matrices m m1
  = inr (Js.Num (hamming_similarity (hammingDistance m m1) r c)).
Proof.
  intros Hr Hc Hm Hm1. unfold compare_matrices.
  destruct Hm as [Hlen Hrows]. destruct m as [|row0 m']; [cbn in Hlen; lia|].
  cbn [lookup list_lookup].
  assert (length row0 = c) as -> by by apply Forall_cons_iff in Hrows as [? _].
  rewrite Hlen.
  rewrite (distance_hamming r c) by done.
  rewrite similarity_num by nia. done.
Qed.

Lemma hamming_row_refl row : hamming_row row row = 0.
Proof.
  unfold hamming_row. induction row as [|x row IH]; [done|].
  cbn [zip_with]. rewrite filter_cons. cbn [fst snd].
  by rewrite decide_False by (by intros ?).
Qed.

Lemma hammingDistance_refl m : hammingDistance m m = 0.
Proof.
  unfold hammingDistance. induction m as [|row m IH]; [done|].
  cbn. by rewrite hamming_row_refl, IH.
Qed.

Lemma hamming_row_inverted row row1 :
  Forall2 (λ a b : Z, a ≠ b) row row1 → hamming_row row row1 = length row.
Proof.
  unfold hamming_row. induction 1 as [|x y row row1 Hxy _ IH]; [done|].
  cbn [zip_with]. rewrite filter_cons. cbn [fst snd].
  rewrite decide_True by done. cbn. by rewrite IH.
Qed.

Lemma hammingDistance_inverted r c m m1 :
  rectangular r c m → inverted m m1 → hammingDistance m m1 = r * c.
Proof.
  intros [Hlen Hrows] Hinv. revert r Hlen Hrows. unfold hammingDistance.
  induction Hinv as [|row row1 m m1 Hrow _ IH]; intros r Hlen Hrows.
  - cbn in Hlen. by subst.
  - apply Forall_cons_iff in Hrows as [Hc Hrows]. cbn in Hlen. subst r.
    cbn. rewrite (hamming_row_inverted _ _ Hrow), (IH (length m)) by done. lia.
Qed.

Lemma hamming_similarity_quarter :
  hamming_similarity 1 2 2 = Qc_of_Z 75.
Proof. apply Qc_is_canon. by vm_compute. Qed.

Lemma hamming_similarity_zero r c : hamming_similarity 0 r c = Qc_of_Z 100.
Proof.
  unfold hamming_similarity. change (Z.of_nat 0) with 0%Z. rewrite Z2Qc_inj_0.
  unfold Qcdiv. rewrite !Qcmult_0_l. ring.
Qed.

Lemma hamming_similarity_all r c :
  0 < r * c → hamming_similarity (r * c) r c = 0%Qc.
Proof.
  intros Hrc. unfold hamming_similarity, Qcdiv.
  rewrite Qcmult_inv_r by by apply Qc_of_nat_nonzero. ring.
Qed.

(** C4.  On two drawings of the same positive width and height the shape
    comparator resolves with [100 − (hammingDistance / (rows × cols)) × 100]
    for the two binarized matrices; hence 100 for identical matrices, 75 for
    2×2 matrices that differ in one cell, 0 for matrices that differ in every
    cell. *)
Theorem shape_compare_hamming (img img1 : drawing) :
  well_formed img → well_formed img1 →
  width img = width img1 → height img = height img1 →
  0 < width img → 0 < height img →
  ∃ m m1,
    _getBinarizedMatrix img = inr m ∧ _getBinarizedMatrix img1 = inr m1 ∧
    rectangular (height img) (width img) m ∧
    rectangular (height img) (width img) m1 ∧
    ShapePerception._compare (Js.Resolved (img, img1))
    = Js.Resolved (Js.Num (hamming_similarity (hammingDistance m m1)
                                              (height img) (width img))) ∧
    (m = m1 → ShapePerception._compare (Js.Resolved (img, img1))
              = Js.Resolved (Js.Num (Qc_of_Z 100))) ∧
    (height img = 2 → width img = 2 → hammingDistance m m1 = 1 →
     ShapePerception._compare (Js.Resolved (img, img1))
     = Js.Resolved (Js.Num (Qc_of_Z 75))) ∧
    (inverted m m1 → ShapePerception._compare (Js.Resolved (img, img1))
                     = Js.Resolved (Js.Num 0%Qc)).
Proof.
  intros Hwf Hwf1 HW HH Hw Hh.
  destruct (getBinarizedMatrix_rectangular img Hwf Hw Hh) as (m & Hm & Hrect).
  destruct (getBinarizedMatrix_rectangular img1 Hwf1) as (m1 & Hm1 & Hrect1);
    [congruence..|].
  rewrite <- HW, <- HH in Hrect1.
  assert (ShapePerception._compare (Js.Resolved (img, img1))
          = Js.Resolved (Js.Num (hamming_similarity (hammingDistance m m1)
                                                    (height img) (width img))))
    as Hcmp.
  { unfold ShapePerception._compare. rewrite Hm, Hm1.
    by rewrite (compare_matrices_rectangular (height img) (width img)). }
  exists m, m1. do 5 (split; [done|]). split; [|split].
  - intros <-. by rewrite Hcmp, hammingDistance_refl, hamming_similarity_zero.
  - intros Hh2 Hw2 Hd. by rewrite Hcmp, Hd, Hh2, Hw2, hamming_similarity_quarter.
  - intros Hinv. rewrite Hcmp.
    rewrite (hammingDistance_inverted (height img) (width img)) by done.
    rewrite hamming_similarity_all by nia. done.
Qed.

Lemma shape_compare_hamming_witness :
  ShapePerception._compare (Js.Resolved (img_a, img_b))
  = Js.Resolved (Js.Num (Qc_of_Z 75)).
Proof.
  destruct (shape_compare_hamming img_a img_b) as
    (m & m1 & Hm & Hm1 & _ & _ & _ & _ & H75 & _);
    [reflexivity | reflexivity | reflexivity | reflexivity
    | cbn; lia | cbn; lia |].
  vm_compute in Hm, Hm1. simplify_eq. by apply H75.
Defined.

(** Whatever the drawings, a value the shape comparator resolves with is a
    percentage. *)
Lemma shape_compare_percentage res v :
  ShapePerception._compare res = Js.Resolved v → percentage v.
Proof.
  unfold ShapePerception._compare. destruct res as [|[img img1]|]; try done.
  destruct (_getBinarizedMatrix img) as [|m] eqn:Hm; [done|].
  destruct (_getBinarizedMatrix img1) as [|m1]; [done|].
  unfold compare_matrices. destruct (m !! 0) as [row0|] eqn:Hrow0; [|done].
  destruct (distance m m1 (length m) (length row0)) as [|dist] eqn:Hd; [done|].
  intros [= <-]. apply distance_bound in Hd.
  assert (0 < length m) as Hr by (by apply lookup_lt_Some in Hrow0).
  assert (0 < length row0) as Hc.
  { destruct (decide (width img = 0)) as [HW|HW].
    - unfold _getBinarizedMatrix in Hm. rewrite scan_data_reds in Hm.
      destruct (reds (data img)) as [|red pixels].
      + cbn in Hm. by simplify_eq.
      + cbn [for_each] in Hm. unfold scan_pixel in Hm at 1. cbn in Hm.
        rewrite HW in Hm. cbn in Hm. done.
    - destruct (getBinarizedMatrix_scanned img) as (s & Hs & Hinv); [lia|].
      rewrite Hm in Hs. simplify_eq.
      destruct Hinv as [(_ & Hnil & _)|(_ & Hw & _ & Hrows)].
      + by rewrite Hnil in Hrow0.
      + rewrite (Hrows 0 row0 Hrow0). case_decide; lia. }
  rewrite similarity_num by nia. apply hamming_similarity_range; nia.
Qed.

End Shape.

(** ** The average of a font *)

(** Goals on the order of [Qc] with constant factors, as goals on [Q]. *)
Ltac Qc_to_Q :=
  unfold Qcle, Qclt, Qcdiv, Qcminus, Qcplus, Qcmult, Qcopp, Qcinv, Qc_of_Z, Q2Qc in *;
  cbn [this] in *; rewrite ?Qred_correct in *; unfold inject_Z in *;
  cbn [Qinv Qnum Qden] in *.

Lemma mean_range (a s : Qc) :
  (0 ≤ a)%Qc → (a ≤ Qc_of_Z 100)%Qc → (0 ≤ s)%Qc → (s ≤ Qc_of_Z 100)%Qc →
  (0 ≤ (a + s) / Qc_of_Z 2)%Qc ∧ ((a + s) / Qc_of_Z 2 ≤ Qc_of_Z 100)%Qc.
Proof. intros. Qc_to_Q. split; lra. Qed.

Lemma sum_step_range (calc mean n : Qc) :
  (0 ≤ calc)%Qc → (calc ≤ Qc_of_Z 100 * n)%Qc →
  (0 ≤ mean)%Qc → (mean ≤ Qc_of_Z 100)%Qc →
  (0 ≤ calc + mean)%Qc ∧ (calc + mean ≤ Qc_of_Z 100 * (n + 1))%Qc.
Proof. intros. Qc_to_Q. split; lra. Qed.

Lemma average_fold (l : list (string * score)) :
  Forall (λ kv, score_in_range kv.2) l →
  ∃ calc,
    foldr (λ kv '(calc, ll),
             ((calc + (analytic kv.2 + shape kv.2) / Qc_of_Z 2)%Qc, S ll))
          (0%Qc, 0) l = (calc, length l) ∧
    (0 ≤ calc)%Qc ∧ (calc ≤ Qc_of_Z 100 * Qc_of_Z (Z.of_nat (length l)))%Qc.
Proof.
  induction 1 as [|kv l [[Ha0 Ha1] [Hs0 Hs1]] _ (calc & Hfold & Hc0 & Hc1)].
  - exists 0%Qc. split; [done|]. cbn [length]. change (Z.of_nat 0) with 0%Z.
    rewrite Z2Qc_inj_0, Qcmult_0_r. done.
  - cbn [foldr length]. rewrite Hfold.
    destruct (mean_range _ _ Ha0 Ha1 Hs0 Hs1) as [Hm0 Hm1].
    eexists; split; [done|].
    rewrite Nat2Z.inj_succ, <- Z.add_1_r, Z2Qc_inj_add, Z2Qc_inj_1.
    by apply sum_step_range.
Qed.

Lemma quotient_range (calc n : Qc) :
  (0 < n)%Qc → (0 ≤ calc)%Qc → (calc ≤ Qc_of_Z 100 * n)%Qc →
  (0 ≤ calc / n)%Qc ∧ (calc / n ≤ Qc_of_Z 100)%Qc.
Proof.
  intros Hn H0 H1. pose proof (Qcinv_pos _ Hn) as Hinv.
  assert (n ≠ 0%Qc) as Hne by (intros ->; by apply (Qclt_not_eq _ _ Hn)).
  unfold Qcdiv. split.
  - apply Qcmult_nonneg_nonneg; [done|by apply Qclt_le_weak].
  - apply Qcle_trans with (Qc_of_Z 100 * n * / n)%Qc.
    + apply Qcmult_le_mono_nonneg_r; [by apply Qclt_le_weak|done].
    + rewrite <- Qcmult_assoc, Qcmult_inv_r, Qcmult_1_r by done.
      apply Qcle_refl.
Qed.

Lemma average_nonempty (res : gmap string score) :
  res ≠ ∅ → ∃ q, _average res = Js.Num q.
Proof.
  intros Hne. unfold _average.
  assert (∃ calc, foldr (λ kv '(calc, ll),
             ((calc + (analytic kv.2 + shape kv.2) / Qc_of_Z 2)%Qc, S ll))
          (0%Qc, 0) (map_to_list res) = (calc, length (map_to_list res)))
    as [calc ->].
  { induction (map_to_list res) as [|kv l [calc IH]]; [by eexists|].
    cbn [foldr length]. rewrite IH. by eexists. }
  assert (0 < length (map_to_list res)) as Hlen.
  { rewrite length_map_to_list. apply map_size_non_empty_iff in Hne. lia. }
  unfold Js.div. rewrite decide_False; [by eexists|].
  intros Heq. rewrite <- Z2Qc_inj_0 in Heq. apply Z2Qc_inj in Heq. lia.
Qed.

Lemma average_percentage (res : gmap string score) :
  res ≠ ∅ → map_Forall (λ _ s, score_in_range s) res → percentage (_average res).
Proof.
  intros Hne Hall. unfold _average.
  destruct (average_fold (map_to_list res)) as (calc & -> & Hc0 & Hc1).
  { apply Forall_forall. intros [k sc] Hin.
    apply (Hall k sc). apply elem_of_map_to_list. by apply list_elem_of_In. }
  assert (0 < length (map_to_list res)) as Hlen.
  { rewrite length_map_to_list. apply map_size_non_empty_iff in Hne. lia. }
  assert (0 < Qc_of_Z (Z.of_nat (length (map_to_list res))))%Qc as Hpos.
  { rewrite <- Z2Qc_inj_0. apply (proj1 (Z2Qc_inj_lt 0 _)). lia. }
  unfold Js.div. rewrite decide_False by (intros Heq; rewrite Heq in Hpos;
    by apply (Qclt_not_eq _ _ Hpos)).
  eexists; split; [done|]. by apply quotient_range.
Qed.

(** ** The analytic comparator *)

Lemma analytic_compare_percentage `{AnalyticPerception.Jimp image}
    (res : Js.promise (image * image)) opts v :
  (∀ img img1 threshold,
     (0 ≤ AnalyticPerception.diff_percent img img1 threshold)%Qc ∧
     (AnalyticPerception.diff_percent img img1 threshold ≤ 1)%Qc) →
  AnalyticPerception._compare res opts = Js.Resolved v → percentage v.
Proof.
  intros Hdiff. unfold AnalyticPerception._compare.
  destruct res as [|[img img1]|]; try done.
  destruct (default false _); intros [= <-];
    (eexists; split; [done|]); apply percent_range; apply Hdiff.
Qed.

(** ** The aggregation of the comparisons of a font *)

Lemma dom_waiting (first second : gmap string string) :
  dom (waiting (_compare first second)) = dom first.
Proof.
  apply set_eq. intros k. cbn [waiting _compare].
  rewrite !elem_of_dom, map_lookup_imap.
  destruct (first !! k); cbn; [split; eauto|done].
Qed.

Lemma compare_inv_init first second : compare_inv (_compare first second).
Proof.
  split; [|done]. cbn [done todo _compare plus].
  rewrite <- size_dom, dom_waiting, size_dom. done.
Qed.

Lemma compare_inv_step symbol c s :
  compare_inv s → compare_inv (compare_step symbol c s).
Proof.
  intros [Hcount Hres]. unfold compare_step.
  destruct (waiting s !! symbol) as [pair|] eqn:Hw; [|done].
  assert (size (waiting s) = S (size (delete symbol (waiting s)))) as Hsize.
  { rewrite <- (insert_delete_id (waiting s) symbol pair Hw) at 1.
    rewrite map_size_insert_None by apply lookup_delete_eq. done. }
  destruct c as [a sh|e]; unfold finalize;
    (split; cbn [done todo waiting settled result]; [lia|]).
  - intros r. case_decide as Hd.
    + destruct (settled s) eqn:Hs; cbn; intros Hr; simplify_eq.
      * split; [lia|]. apply insert_non_empty.
      * destruct (Hres _ eq_refl). split; [lia|done].
    + intros Hr. destruct (Hres _ Hr). split; [lia|done].
  - intros r. destruct (settled s) eqn:Hs; cbn; intros Hr; simplify_eq.
    destruct (Hres _ eq_refl). split; [lia|done].
Qed.


(** Waiting for nothing, a call of [_compare] never changes. *)
Lemma compare_run_idle s evs : waiting s = ∅ → compare_run s evs = s.
Proof.
  intros Hw. unfold compare_run. induction evs as [|ev evs IH]; [done|].
  cbn [fold_left]. unfold compare_step at 2. rewrite Hw, lookup_empty. done.
Qed.





(** ** Sorting by similarity *)

Lemma insert_sorted_perm {A} (comparefn : A → A → Js.number) x l :
  insert_sorted comparefn x l ≡ₚ x :: l.
Proof.
  induction l as [|y l IH]; [done|]. cbn [insert_sorted].
  destruct (positive (comparefn y x)); [done|].
  rewrite IH. apply Permutation_swap.
Qed.

Lemma sort_perm_from {A} (comparefn : A → A → Js.number) l acc :
  fold_left (λ acc x, insert_sorted comparefn x acc) l acc ≡ₚ acc ++ l.
Proof.
  revert acc. induction l as [|x l IH]; intros acc; cbn [fold_left].
  - by rewrite app_nil_r.
  - rewrite IH, insert_sorted_perm. cbn. apply Permutation_middle.
Qed.

Lemma sort_perm {A} (comparefn : A → A → Js.number) l : sort comparefn l ≡ₚ l.
Proof. unfold sort. by rewrite sort_perm_from. Qed.

Lemma ge_similarity_trans a b c :
  ge_similarity a b → ge_similarity b c → ge_similarity a c.
Proof.
  intros (x & y & Ha & Hb & Hxy) (y' & z & Hb' & Hc & Hyz).
  rewrite Hb in Hb'. simplify_eq. exists x, z. repeat split; try done.
  by apply Qcle_trans with y'.
Qed.

Lemma insert_sorted_sorted x l :
  numeric x → Forall numeric l →
  StronglySorted ge_similarity l →
  StronglySorted ge_similarity (insert_sorted by_similarity x l).
Proof.
  intros [qx Hx] Hnum Hsorted.
  induction Hsorted as [|y l Hsorted IH Hy]; cbn [insert_sorted].
  - repeat constructor.
  - apply Forall_cons_iff in Hnum as [[qy Hqy] Hnum].
    unfold by_similarity at 1. rewrite Hx, Hqy. cbn [Js.sub positive].
    case_bool_decide as Hlt.
    + assert (ge_similarity x y) as Hxy.
      { exists qx, qy. repeat split; try done. apply Qclt_le_weak.
        apply Qclt_minus_iff. done. }
      constructor; [by constructor|]. constructor; [done|].
      eapply Forall_impl; [|exact Hy]. intros z Hz.
      by apply ge_similarity_trans with y.
    + constructor; [by apply IH|].
      rewrite insert_sorted_perm. constructor; [|done].
      exists qy, qx. repeat split; try done.
      apply Qcnot_lt_le. intros Hlt'. apply Hlt.
      by apply (proj1 (Qclt_minus_iff qy qx)).
Qed.

Lemma sort_sorted_from l acc :
  Forall numeric l → Forall numeric acc →
  StronglySorted ge_similarity acc →
  StronglySorted ge_similarity
    (fold_left (λ acc x, insert_sorted by_similarity x acc) l acc).
Proof.
  revert acc. induction l as [|x l IH]; intros acc Hl Hacc Hsorted; [done|].
  apply Forall_cons_iff in Hl as [Hx Hl]. cbn [fold_left]. apply IH; [done| |].
  - rewrite insert_sorted_perm. by constructor.
  - by apply insert_sorted_sorted.
Qed.

Lemma StronglySorted_descending l :
  StronglySorted ge_similarity l → Forall numeric l → descending l.
Proof.
  intros Hsorted Hnum i j a b Hij Ha Hb.
  destruct (decide (i = j)) as [->|Hne].
  - rewrite Ha in Hb. simplify_eq.
    rewrite Forall_lookup in Hnum. destruct (Hnum _ _ Ha) as [q Hq].
    exists q, q. by repeat split.
  - revert i j Hij Hne Ha Hb.
    induction Hsorted as [|y l Hsorted IH Hy]; intros i j Hij Hne Ha Hb; [done|].
    apply Forall_cons_iff in Hnum as [_ Hnum].
    destruct i as [|i], j as [|j]; try lia; cbn in Ha, Hb.
    + simplify_eq. rewrite Forall_lookup in Hy. by apply (Hy j).
    + apply (IH Hnum i j); (done || lia).
Qed.

(** The list [finalize] resolves with is sorted by similarity, descending,
    when the similarities are numbers. *)
Lemma sort_descending l :
  Forall numeric l → descending (sort by_similarity l).
Proof.
  intros Hnum. apply StronglySorted_descending.
  - apply sort_sorted_from; [done|constructor..].
  - by rewrite sort_perm.
Qed.

(** ** The corpus *)

Lemma count_live_le l : count_live l ≤ length l.
Proof.
  unfold count_live. induction l as [|t l IH]; [done|].
  cbn. destruct (live t); lia.
Qed.

Lemma count_live_insert l i t0 t :
  l !! i = Some t0 →
  count_live (<[i := t]> l) + (if live t0 then 1 else 0)
  = count_live l + (if live t then 1 else 0).
Proof.
  unfold count_live. revert i. induction l as [|t1 l IH]; intros i Hi; [done|].
  destruct i as [|i]; cbn [lookup list_lookup] in Hi.
  - change (<[0:=t]> (t1 :: l)) with (t :: l). rewrite !fmap_cons.
    cbn [sum_list sum_list_with]. unfold id. simplify_eq. lia.
  - change (<[S i:=t]> (t1 :: l)) with (t1 :: <[i:=t]> l). rewrite !fmap_cons.
    cbn [sum_list sum_list_with]. specialize (IH i Hi). unfold id in *. lia.
Qed.

Lemma count_live_pos l i t : l !! i = Some t → live t = true → 0 < count_live l.
Proof.
  intros Hi Ht. pose proof (count_live_insert l i t Failing Hi) as Heq.
  rewrite Ht in Heq. cbn in Heq. lia.
Qed.

Lemma compare_step_settled symbol c cs :
  settled cs ≠ Js.Pending → settled (compare_step symbol c cs) = settled cs.
Proof.
  intros Hs. unfold compare_step. destruct (waiting cs !! symbol); [|done].
  destruct c; unfold finalize; cbn; destruct (settled cs); try done;
    by case_decide.
Qed.

Lemma compare_step_resolves symbol c cs fin :
  settled cs = Js.Pending →
  settled (compare_step symbol c cs) = Js.Resolved fin → fin ≠ ∅.
Proof.
  intros Hs. unfold compare_step. destruct (waiting cs !! symbol); [|congruence].
  destruct c; unfold finalize; cbn; rewrite Hs; [|done].
  case_decide; [|done]. cbn. intros [= <-]. apply insert_non_empty.
Qed.

(** Reduce the projections of a state that is written out. *)
Ltac fields :=
  cbn [symbols fonts_todo fonts_done ranking progress progress_calls tasks
       outcome _recognize set_task reject_all].

Lemma recognize_inv_init fonts symbols progress :
  recognize_inv (_recognize fonts symbols progress).
Proof.
  split; fields; try done.
  - etrans; [apply count_live_le|]. by rewrite length_fmap.
  - intros i n f cs Hi. apply list_lookup_fmap_Some in Hi as (? & ? & ?). done.
  - intros i t Hi Hf. apply list_lookup_fmap_Some in Hi as (? & -> & ?). done.
Qed.

Lemma font_loaded_inv s i n f :
  tasks s !! i = Some (Fetching n) →
  recognize_inv s → recognize_inv (font_loaded i n f s).
Proof.
  intros Hi [Hcount Hrank Hnum Hcmp Hfail Hres Hprog]. unfold font_loaded.
  destruct (_symbolsToDomain (symbols s) (alpha f)) as [symbols' alpha'] eqn:Hdom.
  split; fields; try done.
  - pose proof (count_live_insert (tasks s) i _
      (Comparing n {| font_meta := font_meta f; alpha := alpha' |}
                 (_compare symbols' alpha')) Hi) as Heq.
    cbn in Heq. lia.
  - intros i' n' f' cs Hi'. apply list_lookup_insert_Some in Hi'.
    destruct Hi' as [(_ & Heq & _)|(_ & Hi')]; [|by eapply Hcmp].
    simplify_eq. apply compare_inv_init.
  - intros i' t Hi' Hf. apply list_lookup_insert_Some in Hi'.
    destruct Hi' as [(_ & Heq & _)|(_ & Hi')]; [|by eapply Hfail].
    subst t. by destruct Hf.
Qed.

(** Rejecting while the font at [i] was live. *)
Lemma reject_inv s i t0 t e :
  tasks s !! i = Some t0 → live t0 = true → live t = false →
  (∀ n f cs, t = Comparing n f cs → compare_inv cs) →
  recognize_inv s → recognize_inv (reject_all e (set_task i t s)).
Proof.
  intros Hi Hlive Hdead Hnew [Hcount Hrank Hnum Hcmp Hfail Hres Hprog].
  pose proof (count_live_insert (tasks s) i t0 t Hi) as Heq.
  rewrite Hlive, Hdead in Heq.
  assert (∃ e', Js.reject e (outcome s) = Js.Rejected e') as [e' He'].
  { destruct (outcome s) as [|l|e0] eqn:Ho; cbn; [by eexists| |by eexists].
    destruct (Hres l eq_refl). lia. }
  split; fields; try done.
  - lia.
  - intros i' n' f' cs Hi'. apply list_lookup_insert_Some in Hi'.
    destruct Hi' as [(_ & Heq' & _)|(_ & Hi')]; [by eapply Hnew|by eapply Hcmp].
  - intros. by eexists.
  - intros l Hl. congruence.
Qed.

(** Updating the comparisons of a font without settling them. *)
Lemma set_task_inv s i n f cs cs' :
  tasks s !! i = Some (Comparing n f cs) →
  settled cs' = settled cs → compare_inv cs' →
  recognize_inv s → recognize_inv (set_task i (Comparing n f cs') s).
Proof.
  intros Hi Hsame Hnew [Hcount Hrank Hnum Hcmp Hfail Hres Hprog].
  pose proof (count_live_insert (tasks s) i _ (Comparing n f cs') Hi) as Heq.
  cbn [live] in Heq. rewrite Hsame in Heq.
  split; fields; try done.
  - lia.
  - intros i' n' f' cs0 Hi'. apply list_lookup_insert_Some in Hi'.
    destruct Hi' as [(_ & Heq' & _)|(_ & Hi')]; [|by eapply Hcmp].
    by simplify_eq.
  - intros i' t Hi' Hf. apply list_lookup_insert_Some in Hi'.
    destruct Hi' as [(_ & Heq' & _)|(_ & Hi')]; [|by eapply Hfail].
    subst t. cbn in Hf. rewrite Hsame in Hf. by apply (Hfail i _ Hi).
Qed.

Lemma progress_calls_snoc (calls : list progress_call) c done todo :
  length calls = done →
  (∀ k c', calls !! k = Some c' → fractionComplete c' = fraction k todo) →
  fractionComplete c = fraction done todo →
  length (calls ++ [c]) = S done ∧
  ∀ k c', (calls ++ [c]) !! k = Some c' → fractionComplete c' = fraction k todo.
Proof.
  intros Hlen Hold Hnew. split; [rewrite length_app; cbn; lia|].
  intros k c' Hk. apply lookup_app_Some in Hk as [Hk|[Hge Hk]]; [by apply Hold|].
  apply list_lookup_singleton_Some in Hk as [Hk ->].
  by replace k with done by lia.
Qed.

(** [finalize] for the font at [i], whose aggregate has just resolved. *)
Lemma finalize_font_inv s i n f cs cs' fin :
  tasks s !! i = Some (Comparing n f cs) →
  settled cs = Js.Pending → settled cs' = Js.Resolved fin →
  fin ≠ ∅ → compare_inv cs' →
  recognize_inv s →
  recognize_inv (finalize_font n fin f (set_task i (Comparing n f cs') s)).
Proof.
  intros Hi Hpend Hfin Hne Hnew [Hcount Hrank Hnum Hcmp Hfail Hres Hprog].
  pose proof (count_live_insert (tasks s) i _ (Comparing n f cs') Hi) as Heq.
  cbn [live] in Heq. rewrite Hpend, Hfin in Heq.
  destruct (average_nonempty fin Hne) as [q Hq].
  set (m := {| name := match meta_name (default {| meta_name := None;
                               meta_fields := ∅ |} (font_meta f)) with
                       | Some n0 => if Js.truthy n0 then n0 else n
                       | None => n
                       end;
               similarity := _average fin;
               fields := meta_fields (default {| meta_name := None;
                               meta_fields := ∅ |} (font_meta f)) |}).
  assert (Forall numeric (ranking s ++ [m])) as Hnum'.
  { apply Forall_app. split; [done|]. repeat constructor. by exists q. }
  assert (∀ i' n' f' cs0,
            <[i := Comparing n f cs']> (tasks s) !! i' = Some (Comparing n' f' cs0) →
            compare_inv cs0) as Hcmp'.
  { intros i' n' f' cs0 Hi'. apply list_lookup_insert_Some in Hi'.
    destruct Hi' as [(_ & Heq' & _)|(_ & Hi')]; [|by eapply Hcmp].
    by simplify_eq. }
  assert (∀ i' t, <[i := Comparing n f cs']> (tasks s) !! i' = Some t →
                  failed t → ∃ e, outcome s = Js.Rejected e) as Hfail'.
  { intros i' t Hi' Hf. apply list_lookup_insert_Some in Hi'.
    destruct Hi' as [(_ & Heq' & _)|(_ & Hi')]; [|by eapply Hfail].
    subst t. cbn in Hf. rewrite Hfin in Hf. by destruct Hf. }
  assert (progress s = true →
          length (progress_calls s ++
            [{| progress_name := n; progress_val := fin;
                fractionComplete :=
                  Js.div (Js.Num (Qc_of_Z (Z.of_nat (fonts_done s))))
                         (Js.Num (Qc_of_Z (Z.of_nat (fonts_todo s)))) |}])
          = S (fonts_done s) ∧
          ∀ k c', (progress_calls s ++
            [{| progress_name := n; progress_val := fin;
                fractionComplete :=
                  Js.div (Js.Num (Qc_of_Z (Z.of_nat (fonts_done s))))
                         (Js.Num (Qc_of_Z (Z.of_nat (fonts_todo s)))) |}]) !! k
                  = Some c' →
                  fractionComplete c' = fraction k (fonts_todo s)) as Hprog'.
  { intros Hp. destruct (Hprog Hp) as [Hlen Hold].
    by apply progress_calls_snoc. }
  unfold finalize_font. fields. fold m.
  case_decide as Hdone; split; fields.
  - lia.
  - rewrite sort_perm, length_app. cbn. lia.
  - by rewrite sort_perm.
  - done.
  - intros i' t Hi' Hf. destruct (Hfail' i' t Hi' Hf) as [e He].
    rewrite He. by eexists.
  - intros l. destruct (outcome s) as [|l0|e0] eqn:Ho; cbn; intros Hl; simplify_eq.
    + split; [lia|]. split.
      * rewrite sort_perm, length_app. cbn. lia.
      * by apply sort_descending.
    + destruct (Hres l eq_refl). lia.
  - intros Hp. rewrite Hp. by apply Hprog'.
  - lia.
  - rewrite length_app. cbn. lia.
  - done.
  - done.
  - done.
  - intros l Hl. destruct (Hres l Hl) as (? & ? & ?). split; [lia|done].
  - intros Hp. rewrite Hp. by apply Hprog'.
Qed.

Lemma step_inv s ev : recognize_inv s → recognize_inv (step s ev).
Proof.
  intros Hinv. destruct ev as [i r|i symbol c]; cbn [step].
  - destruct (tasks s !! i) as [[n|n f cs|]|] eqn:Hi; try done.
    destruct r as [e|f].
    + by apply (reject_inv s i (Fetching n)).
    + by apply font_loaded_inv.
  - destruct (tasks s !! i) as [[n|n f cs|]|] eqn:Hi; try done.
    pose proof (inv_compare s Hinv i n f cs Hi) as Hcs.
    pose proof (compare_inv_step symbol c cs Hcs) as Hcs'.
    destruct (settled cs) as [|r0|e0] eqn:Hs.
    + destruct (settled (compare_step symbol c cs)) as [|fin|e] eqn:Hs'.
      * apply (set_task_inv s i n f cs); (done || congruence).
      * apply (finalize_font_inv s i n f cs); try done.
        by apply (compare_step_resolves symbol c cs).
      * apply (reject_inv s i (Comparing n f cs)); try done.
        -- cbn. by rewrite Hs.
        -- cbn. by rewrite Hs'.
        -- intros ? ? ? [= <- <- <-]. done.
    + apply (set_task_inv s i n f cs); try done.
      apply compare_step_settled. by rewrite Hs.
    + apply (set_task_inv s i n f cs); try done.
      apply compare_step_settled. by rewrite Hs.
Qed.

Lemma run_inv s evs : recognize_inv s → recognize_inv (run s evs).
Proof.
  unfold run. revert s. induction evs as [|ev evs IH]; intros s Hs; [done|].
  cbn [fold_left]. apply IH. by apply step_inv.
Qed.

Lemma recognize_inv_run fonts symbols progress evs :
  recognize_inv (run (_recognize fonts symbols progress) evs).
Proof. apply run_inv, recognize_inv_init. Qed.

(** The counters and the flag that do not change. *)
Lemma step_constants s ev :
  fonts_todo (step s ev) = fonts_todo s ∧ progress (step s ev) = progress s.
Proof.
  destruct ev as [i r|i symbol c]; cbn [step].
  - destruct (tasks s !! i) as [[n|n f cs|]|]; try done.
    destruct r as [e|f]; [done|]. unfold font_loaded.
    by destruct (_symbolsToDomain _ _).
  - destruct (tasks s !! i) as [[n|n f cs|]|]; try done.
    destruct (settled cs); try done.
    destruct (settled (compare_step symbol c cs)); try done.
    unfold finalize_font. by case_decide.
Qed.

Lemma run_constants s evs :
  fonts_todo (run s evs) = fonts_todo s ∧ progress (run s evs) = progress s.
Proof.
  unfold run. revert s. induction evs as [|ev evs IH]; intros s; [done|].
  cbn [fold_left]. destruct (IH (step s ev)) as [-> ->]. apply step_constants.
Qed.



Lemma run_app s evs evs' : run s (evs ++ evs') = run (run s evs) evs'.
Proof. apply fold_left_app. Qed.

Lemma compare_run_app s evs evs' :
  compare_run s (evs ++ evs') = compare_run (compare_run s evs) evs'.
Proof. apply fold_left_app. Qed.



(** ** Executions of the aggregation and of the corpus match *)

(** The callback of a font that loads replaces the shared set of recognized
    symbols by what the reduction against that font leaves of it. *)
Lemma font_loaded_symbols s i n f :
  symbols (font_loaded i n f s) = prune (symbols s) (alpha f).
Proof. done. Qed.

(** A font with no symbol to compare stays where it is. *)
Lemma step_stuck s i n f cs ev :
  tasks s !! i = Some (Comparing n f cs) →
  waiting cs = ∅ →
  tasks (step s ev) !! i = Some (Comparing n f cs).
Proof.
  intros Hi Hw. assert (i < length (tasks s)) as Hlt by by apply lookup_lt_Some in Hi.
  destruct ev as [i' r|i' symbol c]; cbn [step].
  - destruct (decide (i' = i)) as [->|Hne]; [by rewrite Hi|].
    destruct (tasks s !! i') as [[n'|n' f' cs'|]|]; try done.
    destruct r as [e|f'].
    + fields. by rewrite list_lookup_insert_ne.
    + unfold font_loaded. destruct (_symbolsToDomain _ _). fields.
      by rewrite list_lookup_insert_ne.
  - destruct (decide (i' = i)) as [->|Hne].
    + rewrite Hi. unfold compare_step. rewrite Hw, lookup_empty.
      destruct (settled cs); fields; by rewrite list_lookup_insert_eq.
    + destruct (tasks s !! i') as [[n'|n' f' cs'|]|]; try done.
      destruct (settled cs'); try (fields; by rewrite list_lookup_insert_ne).
      destruct (settled (compare_step symbol c cs'));
        try (fields; by rewrite list_lookup_insert_ne).
      unfold finalize_font. case_decide; fields; by rewrite list_lookup_insert_ne.
Qed.

(** X16.  Consequently a font that shares no symbol with the recognized set
    keeps the corpus match from ever resolving. *)
Lemma stuck_font_blocks fonts glyphs progress pre i n f cs post l :
  tasks (run (_recognize fonts glyphs progress) pre) !! i
  = Some (Comparing n f cs) →
  waiting cs = ∅ → settled cs = Js.Pending →
  outcome (run (_recognize fonts glyphs progress) (pre ++ post))
  ≠ Js.Resolved l.
Proof.
  intros Hi Hw Hs. rewrite run_app.
  pose proof (recognize_inv_run fonts glyphs progress pre) as Hinv.
  revert Hi Hinv. generalize (run (_recognize fonts glyphs progress) pre).
  induction post as [|ev post IH]; intros s Hi Hinv Hl.
  - destruct (inv_resolved s Hinv l Hl) as (Hle & _).
    pose proof (inv_count s Hinv).
    assert (0 < count_live (tasks s)); [|lia].
    apply (count_live_pos _ i _ Hi). cbn. by rewrite Hs.
  - apply (IH (step s ev)); [by apply step_stuck|by apply step_inv|done].
Qed.

(** C1.  On an empty first set [_compare] reads [todo = 0] and starts no
    comparison, so [finalize], the only caller of [resolve], never runs:
    whatever happens afterwards the promise stays pending. *)
Theorem compare_empty_domain_never_settles (second : gmap string string)
    (evs : list (string * comparison)) :
  todo (_compare ∅ second) = 0 ∧
  settled (_compare ∅ second) = Js.Pending ∧
  settled (compare_run (_compare ∅ second) evs) = Js.Pending.
Proof.
  split; [done|]. split; [done|].
  rewrite compare_run_idle; [done|]. apply map_empty. intros k.
  cbn [waiting _compare]. by rewrite map_lookup_imap, lookup_empty.
Qed.

(** C2.  The fonts of a corpus reduce the one object [symbols]: once the
    font with only an [a] has been loaded the recognized set has lost its
    [b], and the font with both letters that is loaded next is compared on
    the [a] alone; loaded first, it is compared on both letters. *)
Theorem recognized_set_is_shared :
  dom (symbols (_recognize ["narrow"; "full"] recognized false)) = {["a"; "b"]} ∧
  dom (symbols (run (_recognize ["narrow"; "full"] recognized false)
                    [FontSettled 0 (inr narrow_font)])) = {["a"]} ∧
  compared_symbols 1
    (run (_recognize ["narrow"; "full"] recognized false)
         [FontSettled 0 (inr narrow_font); FontSettled 1 (inr full_font)])
  = {["a"]} ∧
  compared_symbols 1
    (run (_recognize ["narrow"; "full"] recognized false)
         [FontSettled 1 (inr full_font); FontSettled 0 (inr narrow_font)])
  = {["a"; "b"]}.
Proof. repeat split; by vm_compute. Qed.

(** C5.  [progress] is called with [done / todo] before [done] is
    incremented: the call for the font that completes as number [k + 1] of
    [N] reports [k / N].  A corpus of one font reports 0 in its only call,
    and the pass resolves all the same. *)
Theorem progress_fraction_lags :
  (∀ fonts glyphs evs,
     fractionComplete <$>
       progress_calls (run (_recognize fonts glyphs true) evs)
     = (λ k, fraction k (length fonts)) <$>
       seq 0 (fonts_done (run (_recognize fonts glyphs true) evs))) ∧
  fractionComplete <$>
    progress_calls (run (_recognize ["narrow"] recognized true) single_font)
  = [Js.Num 0%Qc] ∧
  (∃ l, outcome (run (_recognize ["narrow"] recognized true) single_font)
        = Js.Resolved l).
Proof.
  split; [|split; [by vm_compute|by eexists]].
  intros fonts symbols evs.
  pose proof (recognize_inv_run fonts symbols true evs) as Hinv.
  destruct (run_constants (_recognize fonts symbols true) evs) as [Htodo Hprog].
  destruct (inv_progress _ Hinv Hprog) as [Hlen Hcalls].
  rewrite Htodo in Hcalls. cbn [fonts_todo _recognize] in Hcalls.
  apply list_eq. intros k. rewrite !list_lookup_fmap.
  destruct (progress_calls _ !! k) as [c|] eqn:Hk.
  - rewrite lookup_seq_lt by (apply lookup_lt_Some in Hk; lia).
    cbn. f_equal. by apply Hcalls.
  - rewrite lookup_seq_ge by (apply lookup_ge_None in Hk; lia). done.
Qed.

(** C7.  When the pass over a corpus resolves, the list has one entry per
    font of the index and is sorted by similarity in descending order; of
    two entries with similarities 100 and 0 the one with 100 is first. *)
Theorem recognize_ranked fonts glyphs progress evs l :
  outcome (run (_recognize fonts glyphs progress) evs) = Js.Resolved l →
  length l = length fonts ∧ descending l ∧
  (∀ a b, l ≡ₚ [a; b] →
          similarity a = Js.Num (Qc_of_Z 100) → similarity b = Js.Num 0%Qc →
          l = [a; b]).
Proof.
  intros Hl.
  pose proof (recognize_inv_run fonts glyphs progress evs) as Hinv.
  destruct (inv_resolved _ Hinv l Hl) as (_ & Hlen & Hdesc).
  destruct (run_constants (_recognize fonts glyphs progress) evs) as [Htodo _].
  rewrite Htodo in Hlen. split; [done|]. split; [done|].
  intros a b Hperm Ha Hb.
  pose proof (Permutation_length Hperm) as Hl2.
  destruct l as [|x [|y [|z l]]]; try done.
  apply Permutation_length_2 in Hperm as [[-> ->]|[-> ->]]; [done|].
  destruct (Hdesc 0 1 b a) as (qb & qa & Hqb & Hqa & Hle); [lia|done..|].
  rewrite Hb in Hqb. rewrite Ha in Hqa. simplify_eq. by vm_compute in Hle.
Qed.

Lemma recognize_ranked_witness :
  ∃ l, outcome (run (_recognize ["one"; "two"] recognized true) scenario_c)
       = Js.Resolved l ∧
       name <$> l = ["Full"; "two"] ∧
       similarity <$> l = [Js.Num (Qc_of_Z 100); Js.Num 0%Qc] ∧
       length l = 2 ∧ descending l.
Proof.
  eexists. split; [by vm_compute|]. split; [by vm_compute|]. split.
  - cbn [fmap list_fmap similarity].
    f_equal; [|f_equal]; f_equal; apply Qc_is_canon; by vm_compute.
  - refine (let H := recognize_ranked ["one"; "two"] recognized true scenario_c _ _
            in conj (proj1 H) (proj1 (proj2 H))).
    by vm_compute.
Defined.

(** C8.  The similarities are percentages: whatever the shape comparator
    resolves with; what the analytic comparator resolves with, when the
    difference reported by the image library is a fraction of 1; and the
    average [_average] computes over a non-empty aggregate of scores that
    are percentages. *)
Theorem similarity_percentage :
  (∀ res v, ShapePerception._compare res = Js.Resolved v → percentage v) ∧
  (∀ (image : Type) (J : AnalyticPerception.Jimp image) res opts v,
     (∀ img img1 threshold,
        (0 ≤ AnalyticPerception.diff_percent img img1 threshold)%Qc ∧
        (AnalyticPerception.diff_percent img img1 threshold ≤ 1)%Qc) →
     AnalyticPerception._compare res opts = Js.Resolved v → percentage v) ∧
  (∀ res : gmap string score,
     res ≠ ∅ → map_Forall (λ _ s, score_in_range s) res →
     percentage (_average res)).
Proof.
  split; [apply shape_compare_percentage|]. split.
  - intros image J res opts v. apply analytic_compare_percentage.
  - apply average_percentage.
Qed.

Lemma similarity_percentage_witness :
  percentage (Js.Num (Qc_of_Z 75)) ∧
  percentage (Js.Num (Qc_of_Z 100 - 1 / Qc_of_Z 4 * Qc_of_Z 100)%Qc) ∧
  percentage (_average {[ "a" := {| analytic := Qc_of_Z 100; shape := Qc_of_Z 50 |} ]}).
Proof.
  destruct similarity_percentage as (Hshape & Hanalytic & Haverage).
  split; [|split].
  - apply (Hshape (Js.Resolved (img_a, img_b))).
    unfold ShapePerception._compare. vm_compute. do 2 f_equal.
    apply Qc_is_canon. reflexivity.
  - apply (Hanalytic unit quarter (Js.Resolved (tt, tt)) no_options).
    + intros ? ? ?. split; by vm_compute.
    + reflexivity.
  - apply Haverage.
    + apply insert_non_empty.
    + intros k sc Hk. apply lookup_singleton_Some in Hk as [_ <-].
      repeat split; by vm_compute.
Defined.



(** ** The font storage *)

Section Storage.
Import FontStorage.
Context `{Engine}.

(** The glyphs of a font that [_prepareFont] resolves with are [data:] URLs,
    hence truthy. *)
Lemma prepareFont_glyphs_truthy url res doc glyphs k v :
  _prepareFont url res = Js.Resolved doc →
  member doc "alpha" = inr (Some (JObject glyphs)) →
  glyphs !! k = Some v →
  ∃ s, v = JString s ∧ Js.truthy s = true.
Proof.
  unfold _prepareFont. destruct res as [|res|]; try done.
  destruct (member (content res) "alpha") as [|[alpha|]] eqn:Hmem; try done.
  destruct (truthy (Some alpha)); [|done].
  destruct (prefix_alpha alpha) as [|alpha'] eqn:Hpre; [done|].
  intros [= <-]. unfold member in Hmem.
  destruct (content res) as [[| | | | |fields]|]; try done. cbn [with_alpha member].
  rewrite lookup_insert_eq. intros [= ->].
  unfold prefix_alpha in Hpre. destruct alpha as [| | |[|]| |fields0]; try done.
  simplify_eq. rewrite lookup_fmap. destruct (fields0 !! k); [|done].
  intros [= <-]. unfold data_url. by eexists.
Qed.

(** C10.  On a 404 [_fetch] resolves with [exists] false and no [content];
    both [_prepareFontsIndex] and [_prepareFont] then read a property of
    [undefined] and reject with the exception thrown, not with the message
    they have for a document that is present but lacks [index] or
    [alpha]. *)
Theorem missing_document_type_error (url responseText : string) :
  _fetch url (OnLoad 404 responseText)
  = Js.Resolved {| exists_ := false; content := None |} ∧
  (∃ msg, _prepareFontsIndex url (_fetch url (OnLoad 404 responseText))
          = Js.Rejected (Js.TypeError msg)) ∧
  (∃ msg, _prepareFont url (_fetch url (OnLoad 404 responseText))
          = Js.Rejected (Js.TypeError msg)) ∧
  _prepareFontsIndex url
    (Js.Resolved {| exists_ := true; content := Some (JObject ∅) |})
  = Js.Rejected (Js.Message (index_format_message url)) ∧
  _prepareFont url
    (Js.Resolved {| exists_ := true; content := Some (JObject ∅) |})
  = Js.Rejected (Js.Message (font_format_message url)).
Proof.
  split; [done|]. split; [by eexists|]. split; [by eexists|]. done.
Qed.

End Storage.

(** ** The frame of an image *)

Section Frame.
Import ImageDrawing.

(** Induction on a frame, four bytes at a time. *)
Lemma frame_ind (P : list Z → Prop) :
  P [] → (∀ r, P [r]) → (∀ r g, P [r; g]) → (∀ r g b, P [r; g; b]) →
  (∀ r g b a rest, P rest → P (r :: g :: b :: a :: rest)) →
  ∀ data, P data.
Proof.
  intros H0 H1 H2 H3 H4 data.
  assert (∀ n data, length data ≤ n → P data) as Hn.
  { clear data. induction n as [|n IH]; intros data Hlen.
    - destruct data; [done|]. cbn in Hlen. lia.
    - destruct data as [|r [|g [|b [|a rest]]]]; try done.
      apply H4, IH. cbn in Hlen. lia. }
  by apply (Hn (length data)).
Qed.

(** X1.  [reverse] undoes itself, on every frame, and keeps the length of
    the frame. *)
Theorem reverse_involutive (frame : list Z) :
  reverse (reverse frame) = frame ∧ length (reverse frame) = length frame.
Proof.
  unfold reverse. induction frame as [|r|r g|r g b|r g b a rest [IH1 IH2]]
    using frame_ind; cbn [reverse_loop fmap list_fmap length];
    (split; [|try done; by rewrite IH2]).
  - done.
  - f_equal. lia.
  - f_equal; [lia|]. f_equal. lia.
  - f_equal; [lia|]. f_equal; [lia|]. f_equal. lia.
  - rewrite IH1. f_equal; [lia|]. f_equal; [lia|]. f_equal. lia.
Qed.

Lemma reverse_bytes ps : reverse (bytes ps) = bytes (reversed_pixel <$> ps).
Proof.
  unfold reverse, bytes. induction ps as [|[[[r g] b] a] ps IH]; [done|].
  cbn. cbn in IH. by rewrite IH.
Qed.








End Frame.

(** ** More on the shape comparator *)

Section ShapeLayout.
Import ShapePerception.

Lemma concat_insert_last (l : list (list Z)) k row b :
  length l = S k → l !! k = Some row →
  concat (<[k := row ++ [b]]> l) = concat l ++ [b].
Proof.
  revert k. induction l as [|x l IH]; intros k Hlen Hk; [done|].
  destruct k as [|k]; cbn in Hlen, Hk.
  - simplify_eq. destruct l; [|done]. cbn. by rewrite !app_nil_r.
  - change (<[S k:=row ++ [b]]> (x :: l)) with (x :: <[k:=row ++ [b]]> l).
    cbn [concat]. rewrite (IH k) by (done || lia). by rewrite app_assoc.
Qed.

Lemma scan_pixel_concat W n red s s' :
  0 < W → scanned W n s → scan_pixel W red s = inr s' →
  concat (matrix s') = concat (matrix s) ++ [bit red].
Proof.
  intros HW [(-> & Hm & Hw & Hj)|(Hlen & Hw & Hn & Hrows)]; unfold scan_pixel.
  - rewrite Hm, Hw, Hj. rewrite decide_False by lia. rewrite decide_True by done.
    cbn. by intros [= <-].
  - destruct (decide (w s = W)) as [HwW|HwW].
    + rewrite decide_True by done.
      rewrite lookup_app_r by lia.
      replace (S (j s) - length (matrix s)) with 0 by lia.
      cbn [lookup list_lookup]. intros [= <-]. cbn [matrix].
      change [if decide (red = 255%Z) then 1%Z else 0%Z] with ([] ++ [bit red]).
      rewrite (concat_insert_last _ (S (j s)) []).
      * rewrite concat_app. cbn. by rewrite app_nil_r.
      * rewrite length_app. cbn. lia.
      * rewrite lookup_app_r by lia.
        by replace (S (j s) - length (matrix s)) with 0 by lia.
    + rewrite decide_False by lia.
      destruct (matrix s !! j s) as [row|] eqn:Hrow; [|done].
      intros [= <-]. cbn [matrix]. by apply concat_insert_last.
Qed.

Lemma for_each_concat W pixels n s :
  0 < W → scanned W n s →
  ∃ s', for_each (scan_pixel W) pixels s = inr s' ∧
        scanned W (n + length pixels) s' ∧
        concat (matrix s') = concat (matrix s) ++ (bit <$> pixels).
Proof.
  intros HW. revert n s. induction pixels as [|red pixels IH]; intros n s Hs.
  - exists s. rewrite Nat.add_0_r, app_nil_r. done.
  - destruct (scan_pixel_scanned W n red s HW Hs) as (s1 & Heq & Hs1).
    pose proof (scan_pixel_concat W n red s s1 HW Hs Heq) as Hc1.
    cbn [for_each]. rewrite Heq.
    destruct (IH (S n) s1 Hs1) as (s' & Heq' & Hs' & Hc').
    exists s'. split; [done|]. split.
    + cbn [length]. by replace (n + S (length pixels)) with (S n + length pixels) by lia.
    + rewrite Hc', Hc1, <- app_assoc. done.
Qed.

(** X4.  On a canvas of positive width [_getBinarizedMatrix] does not throw,
    and its matrix, read row after row, is the sequence of the red bytes of
    the pixels, each turned into 1 when it is 255 and into 0 otherwise; no
    row is empty or longer than the canvas is wide. *)
Theorem getBinarizedMatrix_row_major (img : drawing) :
  0 < width img →
  ∃ m, _getBinarizedMatrix img = inr m ∧
       concat m = bit <$> reds (data img) ∧
       Forall (λ row, 0 < length row ∧ length row ≤ width img) m.
Proof.
  intros HW. unfold _getBinarizedMatrix. rewrite scan_data_reds.
  destruct (for_each_concat (width img) (reds (data img)) 0
              {| matrix := []; w := 0; j := 0 |} HW) as (s & Heq & Hs & Hc).
  { left. done. }
  exists (matrix s). rewrite Heq. split; [done|]. split; [done|].
  apply Forall_lookup. intros i row Hi.
  destruct Hs as [(_ & Hnil & _)|(_ & Hw & _ & Hrows)].
  - by rewrite Hnil in Hi.
  - rewrite (Hrows i row Hi). case_decide; lia.
Qed.

Lemma getBinarizedMatrix_row_major_witness :
  ∃ m, _getBinarizedMatrix img_b = inr m ∧
       concat m = [1; 0; 0; 0]%Z ∧
       Forall (λ row, 0 < length row ∧ length row ≤ 2) m.
Proof. apply (getBinarizedMatrix_row_major img_b). cbn. lia. Defined.

Lemma hamming_row_sym row row1 : hamming_row row row1 = hamming_row row1 row.
Proof.
  unfold hamming_row. revert row1.
  induction row as [|x row IH]; intros [|y row1]; try done.
  cbn [zip_with]. rewrite !filter_cons. cbn [fst snd].
  destruct (decide (x ≠ y)), (decide (y ≠ x)); try congruence; cbn; by rewrite IH.
Qed.

Lemma hammingDistance_sym m m1 : hammingDistance m m1 = hammingDistance m1 m.
Proof.
  unfold hammingDistance. revert m1.
  induction m as [|row m IH]; intros [|row1 m1]; try done.
  cbn. by rewrite hamming_row_sym, IH.
Qed.

(** X5.  The shape comparison is symmetric: on two drawings of the same
    positive size, the order of the two makes no difference. *)
Theorem shape_compare_symmetric (img img1 : drawing) :
  well_formed img → well_formed img1 →
  width img = width img1 → height img = height img1 →
  0 < width img → 0 < height img →
  ShapePerception._compare (Js.Resolved (img, img1))
  = ShapePerception._compare (Js.Resolved (img1, img)).
Proof.
  intros Hwf Hwf1 HW HH Hw Hh.
  destruct (getBinarizedMatrix_rectangular img Hwf Hw Hh) as (m & Hm & Hrect).
  destruct (getBinarizedMatrix_rectangular img1 Hwf1) as (m1 & Hm1 & Hrect1);
    [congruence..|].
  rewrite <- HW, <- HH in Hrect1.
  unfold ShapePerception._compare. rewrite Hm, Hm1.
  rewrite !(compare_matrices_rectangular (height img) (width img)) by done.
  by rewrite hammingDistance_sym.
Qed.

Lemma shape_compare_symmetric_witness :
  ShapePerception._compare (Js.Resolved (img_a, img_b))
  = ShapePerception._compare (Js.Resolved (img_b, img_a)).
Proof.
  apply shape_compare_symmetric;
    [reflexivity | reflexivity | reflexivity | reflexivity | cbn; lia | cbn; lia].
Defined.

Lemma hamming_row_zero row row1 :
  length row = length row1 → hamming_row row row1 = 0 → row = row1.
Proof.
  unfold hamming_row. revert row1.
  induction row as [|x row IH]; intros [|y row1] Hlen; try done.
  cbn [zip_with]. rewrite filter_cons. cbn [fst snd].
  destruct (decide (x ≠ y)) as [|Heq]; [done|].
  intros Hz. apply dec_stable in Heq. subst y. f_equal. apply IH; [|done].
  cbn in Hlen. lia.
Qed.

Lemma hammingDistance_zero r c m m1 :
  rectangular r c m → rectangular r c m1 → hammingDistance m m1 = 0 → m = m1.
Proof.
  intros [Hlen Hrows] [Hlen1 Hrows1]. subst r. revert m1 Hlen1 Hrows1.
  unfold hammingDistance.
  induction m as [|row m IH]; intros [|row1 m1] Hlen1 Hrows1; try done.
  apply Forall_cons_iff in Hrows as [Hc Hrows].
  apply Forall_cons_iff in Hrows1 as [Hc1 Hrows1].
  cbn. intros Hz. f_equal.
  - apply hamming_row_zero; [congruence|lia].
  - apply IH; [done| |done|lia]. cbn in Hlen1. lia.
Qed.

Lemma hamming_similarity_full dist r c :
  0 < r * c → hamming_similarity dist r c = Qc_of_Z 100 → dist = 0.
Proof.
  intros Hrc Heq. unfold hamming_similarity in Heq.
  assert (Qc_of_Z (Z.of_nat dist) / Qc_of_Z (Z.of_nat (r * c)) * Qc_of_Z 100 = 0)%Qc
    as Hzero.
  { replace (Qc_of_Z (Z.of_nat dist) / Qc_of_Z (Z.of_nat (r * c)) * Qc_of_Z 100)%Qc
      with (Qc_of_Z 100 - (Qc_of_Z 100
              - Qc_of_Z (Z.of_nat dist) / Qc_of_Z (Z.of_nat (r * c)) * Qc_of_Z 100))%Qc
      by ring.
    rewrite Heq. ring. }
  apply Qcmult_integral in Hzero as [Hzero|Hzero].
  - unfold Qcdiv in Hzero. apply Qcmult_integral in Hzero as [Hzero|Hzero].
    + rewrite <- Z2Qc_inj_0 in Hzero. apply Z2Qc_inj in Hzero. lia.
    + exfalso. assert (0 < Qc_of_Z (Z.of_nat (r * c)))%Qc as Hpos.
      { rewrite <- Z2Qc_inj_0. apply (proj1 (Z2Qc_inj_lt 0 _)). lia. }
      apply Qcinv_pos in Hpos. rewrite Hzero in Hpos.
      by apply (Qclt_not_eq _ _ Hpos).
  - exfalso. rewrite <- Z2Qc_inj_0 in Hzero. by apply Z2Qc_inj in Hzero.
Qed.

(** X6.  On two drawings of the same positive size the shape comparison
    resolves with 100 only for identical matrices (and for them it does). *)
Theorem shape_compare_full_only_identical (img img1 : drawing) m m1 :
  well_formed img → well_formed img1 →
  width img = width img1 → height img = height img1 →
  0 < width img → 0 < height img →
  _getBinarizedMatrix img = inr m → _getBinarizedMatrix img1 = inr m1 →
  ShapePerception._compare (Js.Resolved (img, img1))
  = Js.Resolved (Js.Num (Qc_of_Z 100)) ↔ m = m1.
Proof.
  intros Hwf Hwf1 HW HH Hw Hh Hm Hm1.
  destruct (getBinarizedMatrix_rectangular img Hwf Hw Hh) as (m' & Hm' & Hrect).
  destruct (getBinarizedMatrix_rectangular img1 Hwf1) as (m1' & Hm1' & Hrect1);
    [congruence..|].
  rewrite <- HW, <- HH in Hrect1.
  assert (m' = m) as -> by congruence. assert (m1' = m1) as -> by congruence.
  unfold ShapePerception._compare. rewrite Hm, Hm1.
  rewrite (compare_matrices_rectangular (height img) (width img)) by done.
  split.
  - intros Heq.
    assert (hamming_similarity (hammingDistance m m1) (height img) (width img)
            = Qc_of_Z 100) as Heq' by congruence.
    apply hamming_similarity_full in Heq'; [|nia].
    by apply (hammingDistance_zero (height img) (width img)).
  - intros <-. by rewrite hammingDistance_refl, hamming_similarity_zero.
Qed.

Lemma shape_compare_full_only_identical_witness :
  ShapePerception._compare (Js.Resolved (img_a, img_a))
  = Js.Resolved (Js.Num (Qc_of_Z 100)) ↔
  [[1; 0]; [0; 1]]%Z = [[1; 0]; [0; 1]]%Z.
Proof.
  apply shape_compare_full_only_identical;
    [reflexivity | reflexivity | reflexivity | reflexivity
    | cbn; lia | cbn; lia | reflexivity | reflexivity].
Defined.




(** X8.  With a comparison size that is not 0 (64 unless the option is
    given) the shape perception of two loaded images never rejects: it
    resolves with a percentage, and with 100 when the two images are the
    same.  A failure to load is passed on. *)
Theorem perceive_total `{ImageDrawing.Raster image} size (first second : image) :
  size ≠ Some 0 →
  (∃ q, perceive size (Js.Resolved (first, second)) = Js.Resolved (Js.Num q) ∧
        (0 ≤ q)%Qc ∧ (q ≤ Qc_of_Z 100)%Qc) ∧
  perceive size (Js.Resolved (first, first)) = Js.Resolved (Js.Num (Qc_of_Z 100)) ∧
  (∀ e, perceive size (Js.Rejected e) = Js.Rejected e).
Proof.
  intros Hsize.
  assert (∃ n, default default_perceptualComparisonSize size = S n) as [n Hn].
  { destruct size as [[|n]|]; [done|by exists n|by eexists]. }
  unfold perceive, _prepareImages. rewrite Hn. cbv zeta.
  unfold ImageDrawing.draw, ImageDrawing.extent. rewrite Nat.mul_1_r.
  set (a := {| width := S n; height := S n;
               data := ImageDrawing.drawImage first (S n) (S n) |}).
  set (b := {| width := S n; height := S n;
               data := ImageDrawing.drawImage second (S n) (S n) |}).
  assert (well_formed a) as Ha by apply ImageDrawing.drawImage_length.
  assert (well_formed b) as Hb by apply ImageDrawing.drawImage_length.
  destruct (getBinarizedMatrix_rectangular a Ha) as (m & Hm & Hrect); [cbn; lia..|].
  destruct (getBinarizedMatrix_rectangular b Hb) as (m1 & Hm1 & Hrect1); [cbn; lia..|].
  cbn [width height] in Hrect, Hrect1.
  split; [|split; [|done]].
  - unfold ShapePerception._compare. rewrite Hm, Hm1.
    rewrite (compare_matrices_rectangular (S n) (S n)) by (done || lia).
    pose proof (distance_hamming (S n) (S n) m m1 Hrect Hrect1) as Hd.
    apply distance_bound in Hd.
    destruct (hamming_similarity_range (hammingDistance m m1) (S n) (S n))
      as (q & Heq & Hq); [done|lia|].
    assert (q = hamming_similarity (hammingDistance m m1) (S n) (S n))
      as -> by congruence.
    by eexists.
  - unfold ShapePerception._compare. rewrite Hm.
    rewrite (compare_matrices_rectangular (S n) (S n)) by (done || lia).
    by rewrite hammingDistance_refl, hamming_similarity_zero.
Qed.

Lemma perceive_total_witness :
  (∃ q, @perceive unit white_raster None (Js.Resolved (tt, tt))
        = Js.Resolved (Js.Num q) ∧ (0 ≤ q)%Qc ∧ (q ≤ Qc_of_Z 100)%Qc) ∧
  @perceive unit white_raster None (Js.Resolved (tt, tt))
  = Js.Resolved (Js.Num (Qc_of_Z 100)) ∧
  (∀ e, @perceive unit white_raster None (Js.Rejected e) = Js.Rejected e).
Proof. by apply (@perceive_total unit white_raster None tt tt). Defined.

End ShapeLayout.

(** ** More on the glyph sets *)

Lemma prune_subseteq first second : prune first second ⊆ first.
Proof.
  apply map_subseteq_spec. intros k v. rewrite prune_lookup.
  by destruct (Js.truthy_get second k).
Qed.


Lemma prune_id first second :
  GlyphSet first → dom first ⊆ dom second → GlyphSet second →
  prune first second = first.
Proof.
  intros Hf Hsub Hs. apply map_eq. intros k. rewrite prune_lookup.
  rewrite (truthy_get_GlyphSet second k Hs).
  case_bool_decide as Hk; [done|]. symmetry. apply not_elem_of_dom. set_solver.
Qed.

(** X10.  On glyph sets [_symbolsToDomain] is idempotent: run on what it
    left, it changes nothing. *)
Theorem symbolsToDomain_idempotent (A B : gmap string string) :
  GlyphSet A → GlyphSet B →
  _symbolsToDomain (_symbolsToDomain A B).1 (_symbolsToDomain A B).2
  = _symbolsToDomain A B.
Proof.
  intros HA HB. unfold _symbolsToDomain. cbn [fst snd].
  pose proof (prune_GlyphSet A B HA) as HA'.
  pose proof (prune_GlyphSet B (prune A B) HB) as HB'.
  assert (prune (prune A B) (prune B (prune A B)) = prune A B) as Heq.
  { apply prune_id; [done| |done].
    rewrite (dom_prune B (prune A B)) by done.
    rewrite (dom_prune A B) by done. set_solver. }
  rewrite Heq. f_equal. apply prune_id; [done| |done].
  rewrite (dom_prune B (prune A B)) by done. set_solver.
Qed.

Lemma symbolsToDomain_idempotent_witness :
  _symbolsToDomain (_symbolsToDomain recognized (alpha narrow_font)).1
                   (_symbolsToDomain recognized (alpha narrow_font)).2
  = _symbolsToDomain recognized (alpha narrow_font).
Proof.
  apply symbolsToDomain_idempotent;
    unfold GlyphSet; apply (bool_decide_unpack _); by vm_compute.
Defined.

Section Extraction.
Context `{ImageDrawing.Canvas image fragment}.

Lemma accepted_app threshold label (l1 l2 : list symbol) :
  accepted threshold label (l1 ++ l2)
  = accepted threshold label l1 ++ accepted threshold label l2.
Proof. unfold accepted. apply list.filter_app. Qed.

(** X11.  The glyph set of a recognition result read in two parts is the
    set of the second part, completed by the set of the first: a later
    symbol wins over an earlier one with the same text. *)
Theorem symbolsToBase64_app (img : image) (l1 l2 : list symbol) threshold :
  _symbolsToBase64 img (l1 ++ l2) threshold
  = _symbolsToBase64 img l2 threshold ∪ _symbolsToBase64 img l1 threshold.
Proof.
  apply map_eq. intros label.
  rewrite lookup_union, !extract_lookup, accepted_app, last_app.
  by destruct (list.last (accepted _ label l2)),
    (list.last (accepted _ label l1)).
Qed.

Lemma accepted_weaken (t t' : Qc) label (l : list symbol) :
  (t ≤ t')%Qc → accepted t' label l ≠ [] → accepted t label l ≠ [].
Proof.
  intros Hle. unfold accepted. induction l as [|s l IH]; [done|].
  rewrite !filter_cons.
  destruct (decide (text s = label ∧ (t' ≤ confidence s)%Qc)) as [[Ht Hc]|Hn].
  - intros _. rewrite decide_True; [done|].
    split; [done|]. by apply Qcle_trans with t'.
  - intros Hne. specialize (IH Hne). by case_decide.
Qed.

(** X12.  Raising the minimum confidence can only remove labels from the
    glyph set, and the set never has more labels than there are symbols. *)
Theorem symbolsToBase64_threshold_monotone (img : image) (l : list symbol)
    (t t' : Qc) :
  (t ≤ t')%Qc →
  dom (_symbolsToBase64 img l (Some t')) ⊆ dom (_symbolsToBase64 img l (Some t)) ∧
  size (_symbolsToBase64 img l (Some t)) ≤ length l.
Proof.
  intros Hle. split.
  - intros label. rewrite !elem_of_dom, !extract_lookup, !fmap_is_Some.
    rewrite !last_is_Some. cbn [default]. by apply accepted_weaken.
  - unfold _symbolsToBase64. cbn [default].
    assert (∀ data : gmap string string,
      size (fold_left
        (λ data s, if decide (t ≤ confidence s)%Qc
                   then <[text s := ImageDrawing.crop img (x0 (box s)) (y0 (box s))
                                      (x1 (box s)) (y1 (box s))]> data
                   else data) l data) ≤ size data + length l) as Hsize.
    { induction l as [|s l IH]; intros data; cbn [fold_left length]; [lia|].
      etrans; [apply IH|]. case_decide; [|lia].
      pose proof (map_size_insert (text s)
        (ImageDrawing.crop img (x0 (box s)) (y0 (box s)) (x1 (box s)) (y1 (box s)))
        data) as Hins.
      destruct (data !! text s); cbn in Hins; lia. }
    specialize (Hsize ∅). by rewrite map_size_empty in Hsize.
Qed.

End Extraction.

Lemma symbolsToBase64_threshold_monotone_witness :
  dom (@_symbolsToBase64 unit unit plain_canvas tt two_symbols (Some (Qc_of_Z 50)))
  ⊆ dom (@_symbolsToBase64 unit unit plain_canvas tt two_symbols (Some (Qc_of_Z 15))) ∧
  size (@_symbolsToBase64 unit unit plain_canvas tt two_symbols (Some (Qc_of_Z 15)))
  ≤ length two_symbols.
Proof.
  apply (@symbolsToBase64_threshold_monotone unit unit plain_canvas).
  by vm_compute.
Defined.

(** ** More on the aggregation *)

Lemma compare_exact_init first second : compare_exact first [] (_compare first second).
Proof.
  repeat split; try done;
    change (result (_compare first second)) with (∅ : gmap string score);
    rewrite dom_empty_L, ?dom_waiting; set_solver.
Qed.

Lemma compare_exact_step first evs symbol c s :
  compare_exact first evs s →
  compare_exact first (evs ++ [(symbol, c)]) (compare_step symbol c s).
Proof.
  intros (Htodo & Hsize & Hsub & Hdisj & Hevs & Hres).
  assert (∀ k sc, result s !! k = Some sc →
            (k, Compared (analytic sc) (shape sc)) ∈ evs ++ [(symbol, c)]) as Hevs'.
  { intros k sc Hk. apply elem_of_app. left. by apply Hevs. }
  unfold compare_step. destruct (waiting s !! symbol) as [pair|] eqn:Hw;
    [|by split_and!].
  assert (symbol ∈ dom (waiting s)) as Hin by (apply elem_of_dom; eauto).
  assert (result s !! symbol = None) as Hfresh.
  { apply not_elem_of_dom. set_solver. }
  assert (∀ r, settled s ≠ Js.Resolved r) as Hpend.
  { intros r Hr. destruct (Hres r Hr) as [-> Hdom]. set_solver. }
  destruct c as [a sh|e]; unfold finalize, compare_exact;
    cbn [todo done result waiting settled].
  - split_and!.
    + done.
    + rewrite map_size_insert_None by done. lia.
    + rewrite dom_insert_L, dom_delete_L. set_solver.
    + rewrite dom_insert_L, dom_delete_L. set_solver.
    + intros k sc Hk. apply lookup_insert_Some in Hk as [[<- <-]|[_ Hk]].
      * apply elem_of_app. right. cbn. left.
      * by apply Hevs'.
    + intros r. case_decide as Hd; [|intros Hr; by destruct (Hpend r)].
      destruct (settled s) as [|r0|e0] eqn:Hs; cbn; [|by destruct (Hpend r0)|done].
      intros [= <-]. split; [done|]. apply set_subseteq_size_eq.
      * rewrite dom_insert_L. set_solver.
      * rewrite !size_dom, map_size_insert_None by done. lia.
  - split_and!.
    + done.
    + done.
    + rewrite dom_delete_L. set_solver.
    + rewrite dom_delete_L. set_solver.
    + done.
    + intros r. destruct (settled s) as [|r0|e0] eqn:Hs; cbn; [done| |done].
      by destruct (Hpend r0).
Qed.

Lemma compare_exact_run first second evs :
  compare_exact first evs (compare_run (_compare first second) evs).
Proof.
  induction evs as [|[symbol c] evs IH] using rev_ind.
  - apply compare_exact_init.
  - rewrite compare_run_app. by apply compare_exact_step.
Qed.

(** X13.  When the promise of [_compare] is resolved, the aggregate has
    exactly the keys of the first set, and under each key the two scores
    that the comparison of that symbol delivered. *)
Theorem compare_aggregate_exact first second evs r :
  settled (compare_run (_compare first second) evs) = Js.Resolved r →
  dom r = dom first ∧
  ∀ k sc, r !! k = Some sc → (k, Compared (analytic sc) (shape sc)) ∈ evs.
Proof.
  intros Hr.
  destruct (compare_exact_run first second evs) as (_ & _ & _ & _ & Hevs & Hres).
  destruct (Hres r Hr) as [-> Hdom]. done.
Qed.

Lemma compare_aggregate_exact_witness :
  ∃ r, settled (compare_run (_compare recognized (alpha full_font))
                  [("b", mismatch); ("a", perfect)]) = Js.Resolved r ∧
       dom r = dom recognized ∧
       ∀ k sc, r !! k = Some sc →
               (k, Compared (analytic sc) (shape sc))
               ∈ [("b", mismatch); ("a", perfect)].
Proof.
  eexists. split; [by vm_compute|].
  apply (compare_aggregate_exact recognized (alpha full_font)). by vm_compute.
Defined.

Lemma fold_insert_list_to_map (l : list (string * score)) (m : gmap string score) :
  NoDup l.*1 →
  fold_left (λ m ks, <[ks.1 := ks.2]> m) l m = list_to_map l ∪ m.
Proof.
  revert m. induction l as [|[k sc] l IH]; intros m Hnd; cbn [fold_left].
  - by rewrite list_to_map_nil, (left_id_L ∅ (∪)).
  - cbn in Hnd. apply list.NoDup_cons in Hnd as [Hk Hnd]. rewrite IH by done.
    cbn [fst snd]. rewrite list_to_map_cons.
    rewrite <- insert_union_l. symmetry. apply insert_union_r.
    by apply not_elem_of_list_to_map_1.
Qed.

Lemma compare_run_all_compared (scores : list (string * score)) s :
  settled s = Js.Pending → NoDup scores.*1 → scores ≠ [] →
  dom (waiting s) = list_to_set scores.*1 →
  done s + length scores = todo s →
  settled (compare_run s (compared <$> scores))
  = Js.Resolved (fold_left (λ m ks, <[ks.1 := ks.2]> m) scores (result s)).
Proof.
  revert s. induction scores as [|[k sc] scores IH]; intros s Hs Hnd Hne Hdom Hcount;
    [done|].
  cbn in Hnd. apply list.NoDup_cons in Hnd as [Hk Hnd].
  assert (is_Some (waiting s !! k)) as [pair Hw].
  { apply elem_of_dom. rewrite Hdom. cbn. set_solver. }
  rewrite fmap_cons.
  change (compare_run s (?ev :: ?evs))
    with (compare_run (compare_step ev.1 ev.2 s) evs).
  cbn [compared fst snd fold_left]. unfold compare_step. rewrite Hw.
  assert ({| analytic := analytic sc; shape := shape sc |} = sc) as -> by by destruct sc.
  unfold finalize. cbn [todo done result waiting settled].
  destruct (decide (scores = [])) as [->|Hne'].
  - cbn in Hcount. rewrite decide_True by lia. rewrite Hs. done.
  - assert (0 < length scores) by (destruct scores; [done|cbn; lia]).
    cbn [length] in Hcount. rewrite decide_False by lia.
    rewrite IH; cbn [todo done result waiting settled]; try done.
    + rewrite dom_delete_L, Hdom. cbn [fmap list_fmap list_to_set fst].
      set_unfold. intros x. split; [|set_solver].
      intros [[-> | Hx] Hne'']; [done|]. done.
    + lia.
Qed.

(** X14.  When the comparison of every symbol of a non-empty first set
    delivers its scores, each once and in whatever order, the promise of
    [_compare] is resolved, with exactly these scores. *)
Theorem compare_resolves (first second : gmap string string)
    (scores : list (string * score)) :
  first ≠ ∅ → NoDup scores.*1 → list_to_set scores.*1 = dom first →
  settled (compare_run (_compare first second) (compared <$> scores))
  = Js.Resolved (list_to_map scores).
Proof.
  intros Hne Hnd Hdom.
  assert (length scores = size first) as Hlen.
  { rewrite <- size_dom, <- Hdom, size_list_to_set by done. by rewrite length_fmap. }
  rewrite compare_run_all_compared.
  - change (result (_compare first second)) with (∅ : gmap string score).
    rewrite fold_insert_list_to_map by done. by rewrite (right_id_L ∅ (∪)).
  - done.
  - done.
  - intros ->. cbn in Hlen. symmetry in Hlen. by apply map_size_empty_iff in Hlen.
  - by rewrite dom_waiting.
  - cbn. done.
Qed.

Lemma compare_resolves_witness :
  settled (compare_run (_compare recognized (alpha full_font))
             (compared <$> [("b", {| analytic := 0%Qc; shape := 0%Qc |});
                            ("a", {| analytic := Qc_of_Z 100; shape := Qc_of_Z 50 |})]))
  = Js.Resolved (list_to_map [("b", {| analytic := 0%Qc; shape := 0%Qc |});
                              ("a", {| analytic := Qc_of_Z 100; shape := Qc_of_Z 50 |})]).
Proof.
  apply compare_resolves.
  - apply insert_non_empty.
  - apply (bool_decide_unpack _). by vm_compute.
  - by vm_compute.
Defined.

(** ** More on the corpus *)

Lemma step_idle s ev : tasks s = [] → step s ev = s.
Proof. intros Ht. destruct ev; cbn [step]; by rewrite Ht. Qed.

(** X15.  On an empty index [_recognize] starts no request and its promise
    is never settled: no event changes anything. *)
Theorem recognize_empty_index_never_settles (glyphs : gmap string string)
    (progress : bool) (evs : list event) :
  run (_recognize [] glyphs progress) evs = _recognize [] glyphs progress ∧
  outcome (run (_recognize [] glyphs progress) evs) = Js.Pending.
Proof.
  assert (run (_recognize [] glyphs progress) evs = _recognize [] glyphs progress)
    as Heq; [|by rewrite Heq].
  unfold run. induction evs as [|ev evs IH]; [done|].
  cbn [fold_left]. by rewrite step_idle.
Qed.

Lemma stuck_font_blocks_witness :
  outcome (run (_recognize ["odd"; "full"] recognized false)
             ([FontSettled 0 (inr odd_font)]
              ++ [FontSettled 1 (inr full_font); SymbolSettled 0 "c" perfect]))
  ≠ Js.Resolved [].
Proof.
  eapply (stuck_font_blocks _ _ _ _ 0); by vm_compute.
Defined.

Lemma step_symbols s ev : symbols (step s ev) ⊆ symbols s.
Proof.
  destruct ev as [i r|i symbol c]; cbn [step].
  - destruct (tasks s !! i) as [[n|n f cs|]|]; try done.
    destruct r as [e|f]; [done|]. rewrite font_loaded_symbols.
    apply prune_subseteq.
  - destruct (tasks s !! i) as [[n|n f cs|]|]; try done.
    destruct (settled cs); try done.
    destruct (settled (compare_step symbol c cs)); try done.
    unfold finalize_font. by case_decide.
Qed.

(** X17.  In the course of a corpus match the shared set of recognized
    symbols only loses glyphs: at any time it is a part of what it was
    before, with the same images. *)
Theorem recognized_set_only_shrinks (s : recognize_state) (evs : list event) :
  symbols (run s evs) ⊆ symbols s.
Proof.
  unfold run. revert s. induction evs as [|ev evs IH]; intros s; [done|].
  cbn [fold_left]. etrans; [apply IH|]. apply step_symbols.
Qed.

Lemma step_no_progress s ev :
  progress s = false → progress_calls (step s ev) = progress_calls s.
Proof.
  intros Hp. destruct ev as [i r|i symbol c]; cbn [step].
  - destruct (tasks s !! i) as [[n|n f cs|]|]; try done.
    destruct r as [e|f]; [done|]. unfold font_loaded.
    by destruct (_symbolsToDomain _ _).
  - destruct (tasks s !! i) as [[n|n f cs|]|]; try done.
    destruct (settled cs); try done.
    destruct (settled (compare_step symbol c cs)); try done.
    unfold finalize_font. fields. rewrite Hp. by case_decide.
Qed.

Lemma run_no_progress s evs :
  progress s = false → progress_calls (run s evs) = progress_calls s.
Proof.
  unfold run. revert s. induction evs as [|ev evs IH]; intros s Hp; [done|].
  cbn [fold_left]. rewrite IH.
  - by apply step_no_progress.
  - by rewrite (proj2 (step_constants s ev)).
Qed.

(** X18.  At any time of a corpus match the counter of fonts is at most the
    length of the index, the list under construction has one entry per font
    counted, and [progress] has been called once per font counted, or never
    when the option is not given. *)
Theorem recognize_counters (fonts : list string) (glyphs : gmap string string)
    (progress : bool) (evs : list event) :
  fonts_done (run (_recognize fonts glyphs progress) evs) ≤ length fonts ∧
  length (ranking (run (_recognize fonts glyphs progress) evs))
  = fonts_done (run (_recognize fonts glyphs progress) evs) ∧
  length (progress_calls (run (_recognize fonts glyphs progress) evs))
  = if progress then fonts_done (run (_recognize fonts glyphs progress) evs)
    else 0.
Proof.
  pose proof (recognize_inv_run fonts glyphs progress evs) as Hinv.
  destruct (run_constants (_recognize fonts glyphs progress) evs) as [Htodo Hprog].
  split; [|split].
  - pose proof (inv_count _ Hinv) as Hc. rewrite Htodo in Hc.
    cbn [fonts_todo _recognize] in Hc. lia.
  - apply (inv_ranking _ Hinv).
  - destruct progress.
    + by destruct (inv_progress _ Hinv Hprog).
    + by rewrite run_no_progress.
Qed.

(** X19.  The promise of a corpus match is resolved only once every font of
    the index has been counted. *)
Theorem recognize_resolved_complete (fonts : list string)
    (glyphs : gmap string string) (progress : bool) (evs : list event) l :
  outcome (run (_recognize fonts glyphs progress) evs) = Js.Resolved l →
  fonts_done (run (_recognize fonts glyphs progress) evs) = length fonts ∧
  count_live (tasks (run (_recognize fonts glyphs progress) evs)) = 0.
Proof.
  intros Hl.
  pose proof (recognize_inv_run fonts glyphs progress evs) as Hinv.
  destruct (run_constants (_recognize fonts glyphs progress) evs) as [Htodo _].
  destruct (inv_resolved _ Hinv l Hl) as (Hle & _).
  pose proof (inv_count _ Hinv) as Hc. rewrite Htodo in Hc, Hle.
  cbn [fonts_todo _recognize] in Hc, Hle. lia.
Qed.

Lemma recognize_resolved_complete_witness :
  fonts_done (run (_recognize ["one"; "two"] recognized true) scenario_c) = 2 ∧
  count_live (tasks (run (_recognize ["one"; "two"] recognized true) scenario_c)) = 0.
Proof.
  eapply (recognize_resolved_complete ["one"; "two"] recognized true scenario_c).
  by vm_compute.
Defined.

(** ** More on the average *)

(** X20.  [_average] is [NaN] exactly on the empty aggregate. *)
Theorem average_NaN_iff_empty (res : gmap string score) :
  _average res = Js.NaN ↔ res = ∅.
Proof.
  split.
  - intros Hnan. destruct (decide (res = ∅)) as [|Hne]; [done|].
    destruct (average_nonempty res Hne) as [q Hq]. congruence.
  - intros ->. unfold _average. rewrite map_to_list_empty. cbn [foldr].
    unfold Js.div. change (Z.of_nat 0) with 0%Z.
    rewrite decide_True; [done|]. apply Z2Qc_inj_0.
Qed.

(** ** More on the font storage *)

Section StorageMore.
Import FontStorage.
Context `{Engine}.

(** X21.  However a request ends, a result that [_fetch] resolves with has a
    [content] exactly when [exists] is set, and [exists] is set exactly for
    a status other than 404; a rejection of [_fetch] carries a message, never
    an exception; and the promise stays pending only on a timeout, for which
    no handler is installed. *)
Theorem fetch_outcomes (url : string) (ev : xhr_event) :
  match _fetch url ev with
  | Js.Resolved r =>
      (exists_ r = true ↔ is_Some (content r)) ∧
      ∃ status responseText,
        ev = OnLoad status responseText ∧
        (exists_ r = true ↔ status ≠ 404%Z)
  | Js.Rejected e => ∃ text, e = Js.Message text
  | Js.Pending => ev = OnTimeout
  end.
Proof.
  destruct ev as [status responseText| | |]; cbn [_fetch].
  - case_bool_decide as Hs.
    + destruct (JSON_parse responseText) as [c|]; cbn; [|by eexists].
      split; [split; eauto|]. exists status, responseText. by split.
    + cbn. split; [split; [done|by intros [? ?]]|].
      exists status, responseText. split; [done|]. split; [done|].
      intros Hne. by destruct Hs.
  - by eexists.
  - by eexists.
  - done.
Qed.

(** X22.  [_prepareFontsIndex] resolves exactly when the document fetched is
    an object whose [index] is an array, and then with that document as it
    is. *)
Theorem prepareFontsIndex_resolves_iff (url : string) (res : fetched)
    (doc : option json) :
  _prepareFontsIndex url (Js.Resolved res) = Js.Resolved doc ↔
  doc = content res ∧
  ∃ fields items, content res = Some (JObject fields) ∧
                  fields !! "index" = Some (JArray items).
Proof.
  unfold _prepareFontsIndex, member, isArray. split.
  - destruct (content res) as [[| | | | |fields]|]; try done.
    destruct (fields !! "index") as [[| | | |items|]|] eqn:Hindex; try done.
    intros [= <-]. split; [done|]. by exists fields, items.
  - intros (-> & fields & items & -> & ->). done.
Qed.

(** X23.  A document that [_prepareFont] resolves with has an [alpha] that
    is truthy, and when that is an object, each of its glyphs is a string
    that starts with [data:image/png;base64,]. *)
Theorem prepareFont_resolves_data_urls (url : string)
    (res : Js.promise fetched) (doc : option json) :
  _prepareFont url res = Js.Resolved doc →
  ∃ alpha, member doc "alpha" = inr (Some alpha) ∧
           truthy (Some alpha) = true ∧
           ∀ glyphs k v, alpha = JObject glyphs → glyphs !! k = Some v →
                         ∃ s, v = JString ("data:image/png;base64," +:+ s).
Proof.
  unfold _prepareFont. destruct res as [|res|]; try done.
  destruct (member (content res) "alpha") as [|[alpha|]] eqn:Hmem; try done.
  destruct (truthy (Some alpha)) eqn:Htruthy; [|done].
  destruct (prefix_alpha alpha) as [|alpha'] eqn:Hpre; [done|].
  intros [= <-]. unfold member in Hmem.
  destruct (content res) as [[| | | | |fields]|]; try done.
  exists alpha'. cbn [with_alpha member]. rewrite lookup_insert_eq.
  split; [done|]. unfold prefix_alpha in Hpre. split.
  - destruct alpha as [| | |[|]| |fields0]; by simplify_eq.
  - intros glyphs k v -> Hk.
    destruct alpha as [| | |[|]| |fields0]; simplify_eq.
    rewrite lookup_fmap in Hk. destruct (fields0 !! k); cbn in Hk; simplify_eq.
    unfold data_url. by eexists.
Qed.

End StorageMore.

Lemma prepareFont_resolves_data_urls_witness :
  ∃ alpha,
    FontStorage.member
      (Some (FontStorage.JObject
         {[ "alpha" := FontStorage.JObject
              {[ "a" := FontStorage.JString "data:image/png;base64,QUJD" ]} ]}))
      "alpha" = inr (Some alpha) ∧
    FontStorage.truthy (Some alpha) = true ∧
    ∀ glyphs k v, alpha = FontStorage.JObject glyphs → glyphs !! k = Some v →
                  ∃ s, v = FontStorage.JString ("data:image/png;base64," +:+ s).
Proof.
  apply (@prepareFont_resolves_data_urls no_engine "storage/fonts/x/data.json"
           (Js.Resolved {| FontStorage.exists_ := true;
                           FontStorage.content := Some font_file |})).
  by vm_compute.
Defined.

(** ** More on the average, continued *)




(** ** More on the analytic comparator *)

Section PreparedGlyphs.
Import FontStorage.
Context `{Engine}.

Lemma read_source_data_url (atob : string → option string) (v : json) :
  ∃ payload,
    data_url v = JString ("data:image/png;base64," +:+ payload) ∧
    AnalyticPerception.read_source atob ("data:image/png;base64," +:+ payload)
    = AnalyticPerception.Buffer <$> ImageDrawing.base64ToBuffer atob payload.
Proof. unfold data_url. by eexists. Qed.

(** X25.  The glyphs of a font that [_prepareFont] resolves with are read by
    the analytic comparator as inline images, never as addresses to load:
    each is the text [data:image/png;base64,] followed by a payload, the
    [substr(22)] of the comparator cuts off exactly that text, and what is
    handed to [Jimp.read] is the buffer decoded from the payload. *)
Theorem prepared_glyphs_read_as_buffers (atob : string → option string)
    (url : string) (res : Js.promise fetched) (doc : option json)
    (glyphs : gmap string json) (k : string) (g : json) :
  _prepareFont url res = Js.Resolved doc →
  member doc "alpha" = inr (Some (JObject glyphs)) →
  glyphs !! k = Some g →
  ∃ payload,
    g = JString ("data:image/png;base64," +:+ payload) ∧
    AnalyticPerception.read_source atob ("data:image/png;base64," +:+ payload)
    = AnalyticPerception.Buffer <$> ImageDrawing.base64ToBuffer atob payload.
Proof.
  unfold _prepareFont. destruct res as [|res|]; try done.
  destruct (member (content res) "alpha") as [|[alpha|]] eqn:Hmem; try done.
  destruct (truthy (Some alpha)); [|done].
  destruct (prefix_alpha alpha) as [|alpha'] eqn:Hpre; [done|].
  intros [= <-] Hdoc Hk. unfold member in Hmem.
  destruct (content res) as [[| | | | |fields]|]; try done.
  cbn [with_alpha member] in Hdoc. rewrite lookup_insert_eq in Hdoc.
  assert (alpha' = JObject glyphs) as -> by congruence.
  unfold prefix_alpha in Hpre.
  destruct alpha as [| | |[|]| |fields0]; simplify_eq.
  rewrite lookup_fmap in Hk.
  destruct (fields0 !! k) as [v|]; cbn in Hk; simplify_eq.
  apply read_source_data_url.
Qed.

End PreparedGlyphs.

Lemma prepared_glyphs_read_as_buffers_witness :
  ∃ payload,
    FontStorage.JString "data:image/png;base64,QUJD"
    = FontStorage.JString ("data:image/png;base64," +:+ payload) ∧
    AnalyticPerception.read_source Some ("data:image/png;base64," +:+ payload)
    = AnalyticPerception.Buffer <$> ImageDrawing.base64ToBuffer Some payload.
Proof.
  apply (@prepared_glyphs_read_as_buffers no_engine Some
           "storage/fonts/x/data.json"
           (Js.Resolved {| FontStorage.exists_ := true;
                           FontStorage.content := Some font_file |})
           (Some (FontStorage.JObject
              {[ "alpha" := FontStorage.JObject
                   {[ "a" := FontStorage.JString "data:image/png;base64,QUJD" ]} ]}))
           {[ "a" := FontStorage.JString "data:image/png;base64,QUJD" ]} "a");
    by vm_compute.
Defined.

(** ** The brightness of a frame *)

Section Brightness.
Import ImageDrawing.

Lemma brightness_loop_bytes ps (u : Qc) :
  brightness_loop (bytes ps) (Js.Num u) = Js.Num (u + pixel_sum ps)%Qc.
Proof.
  revert u. induction ps as [|[[[r g] b] a] ps IH]; intros u.
  - cbn. by rewrite Qcplus_0_r.
  - change (bytes (((r, g, b, a)) :: ps)) with (r :: g :: b :: a :: bytes ps).
    cbn [brightness_loop Js.add]. rewrite IH. cbn [pixel_sum foldr].
    by rewrite Qcplus_assoc.
Qed.

Lemma pixel_mean_range (z : Z) :
  (0 ≤ z ≤ 1020)%Z →
  (0 ≤ Qc_of_Z z / Qc_of_Z 4)%Qc ∧ (Qc_of_Z z / Qc_of_Z 4 ≤ Qc_of_Z 255)%Qc.
Proof.
  intros [H0 H1].
  assert (0 ≤ Qc_of_Z z)%Qc as Hq0.
  { rewrite <- Z2Qc_inj_0. by apply (proj1 (Z2Qc_inj_le 0 z)). }
  assert (Qc_of_Z z ≤ Qc_of_Z 1020)%Qc as Hq1
    by by apply (proj1 (Z2Qc_inj_le z 1020)).
  generalize dependent (Qc_of_Z z). intros q Hq0 Hq1. Qc_to_Q. split; lra.
Qed.

Lemma pixel_sum_range ps :
  Forall byte_pixel ps →
  (0 ≤ pixel_sum ps)%Qc ∧
  (pixel_sum ps ≤ Qc_of_Z 255 * Qc_of_Z (Z.of_nat (length ps)))%Qc.
Proof.
  induction 1 as [|[[[r g] b] a] ps (Hr & Hg & Hb & Ha) _ [IH0 IH1]].
  - cbn [pixel_sum foldr length]. change (Z.of_nat 0) with 0%Z.
    rewrite Z2Qc_inj_0, Qcmult_0_r. done.
  - cbn [pixel_sum foldr length].
    destruct (pixel_mean_range (r + g + b + a)) as [Hm0 Hm1].
    { unfold byte in *. lia. }
    rewrite Nat2Z.inj_succ, <- Z.add_1_r,
      (Z2Qc_inj_add (Z.of_nat (length ps)) 1), Z2Qc_inj_1.
    fold (pixel_sum ps).
    generalize dependent (pixel_sum ps). intros S.
    generalize dependent (Qc_of_Z (r + g + b + a) / Qc_of_Z 4)%Qc. intros m.
    generalize (Qc_of_Z (Z.of_nat (length ps))). intros n.
    intros. Qc_to_Q. split; lra.
Qed.

Lemma quotient_bound (K calc n : Qc) :
  (0 < n)%Qc → (0 ≤ calc)%Qc → (calc ≤ K * n)%Qc →
  (0 ≤ calc / n)%Qc ∧ (calc / n ≤ K)%Qc.
Proof.
  intros Hn H0 H1. pose proof (Qcinv_pos _ Hn) as Hinv.
  assert (n ≠ 0%Qc) as Hne by (intros ->; by apply (Qclt_not_eq _ _ Hn)).
  unfold Qcdiv. split.
  - apply Qcmult_nonneg_nonneg; [done|by apply Qclt_le_weak].
  - apply Qcle_trans with (K * n * / n)%Qc.
    + apply Qcmult_le_mono_nonneg_r; [by apply Qclt_le_weak|done].
    + rewrite <- Qcmult_assoc, Qcmult_inv_r, Qcmult_1_r by done.
      apply Qcle_refl.
Qed.

(** X26.  The brightness of a frame of whole pixels, at least one, is a
    number between 0 and 255/16: the sum of the means of the pixels is
    divided by the number of bytes, not of pixels, and by 4 once more.  Of
    an empty frame it is [NaN]. *)
Theorem brightness_range (ps : list (Z * Z * Z * Z)) :
  ps ≠ [] → Forall byte_pixel ps →
  (∃ q, brightness (bytes ps) = Js.Num q ∧
        (0 ≤ q)%Qc ∧ (q ≤ Qc_of_Z 255 / Qc_of_Z 16)%Qc) ∧
  brightness [] = Js.NaN.
Proof.
  intros Hne Hbytes. split.
  2:{ unfold brightness. cbn [brightness_loop length]. unfold Js.div at 2.
      change (Z.of_nat 0) with 0%Z. rewrite decide_True by apply Z2Qc_inj_0. done. }
  unfold brightness. rewrite brightness_loop_bytes, Qcplus_0_l.
  assert (length (bytes ps) = 4 * length ps) as Hlen.
  { unfold bytes. clear. induction ps as [|[[[r g] b] a] ps IH]; [done|].
    cbn. cbn in IH. rewrite IH. lia. }
  assert (0 < length ps) as Hpos by (destruct ps; [done|cbn; lia]).
  destruct (pixel_sum_range ps Hbytes) as [HS0 HS1].
  rewrite Hlen. unfold Js.div.
  rewrite decide_False by (apply Qc_of_nat_nonzero; lia).
  rewrite decide_False by (intros Heq; rewrite <- Z2Qc_inj_0 in Heq;
                           by apply Z2Qc_inj in Heq).
  eexists; split; [done|].
  rewrite Nat2Z.inj_mul, Z2Qc_inj_mul. change (Z.of_nat 4) with 4%Z.
  assert (0 < Qc_of_Z (Z.of_nat (length ps)))%Qc as Hn.
  { rewrite <- Z2Qc_inj_0. apply (proj1 (Z2Qc_inj_lt 0 _)). lia. }
  destruct (quotient_bound (Qc_of_Z 255 / Qc_of_Z 4)
              (pixel_sum ps) (Qc_of_Z 4 * Qc_of_Z (Z.of_nat (length ps))))
    as [Hq0 Hq1]; [| done | |].
  - generalize dependent (Qc_of_Z (Z.of_nat (length ps))). intros n ? ?.
    Qc_to_Q. lra.
  - generalize dependent (Qc_of_Z (Z.of_nat (length ps))).
    generalize (pixel_sum ps). intros S n. intros. Qc_to_Q. lra.
  - generalize dependent
      (pixel_sum ps / (Qc_of_Z 4 * Qc_of_Z (Z.of_nat (length ps))))%Qc.
    intros q ? ?. Qc_to_Q. split; lra.
Qed.

Lemma brightness_range_witness :
  (∃ q, brightness (bytes [(255, 255, 255, 255)%Z]) = Js.Num q ∧
        (0 ≤ q)%Qc ∧ (q ≤ Qc_of_Z 255 / Qc_of_Z 16)%Qc) ∧
  brightness [] = Js.NaN.
Proof.
  apply brightness_range; [done|].
  repeat constructor; unfold byte; lia.
Defined.

End Brightness.
